(** * A shallow embedding of the caching simulator and of the assembler's
      instruction encoder.

    Sources: [caching.cpp] (the six-phase simulator and its write-back
    cache) and [assembler.cpp] ([Instruction::encode]).

    Conventions of the embedding.
    - Every C++ integer is a [Z]; each store into a narrower C++ object is
      written out as a reduction ([to_u8], [to_u16], [to_ulong]).
      [unsigned long] is taken to be 64 bits wide (LP64) and plain [char] to
      be signed, as on the x86-64 targets the program is built for.
    - The global arrays are lists.  Indexing a C++ array outside its bounds
      and overflowing a signed [int] have no defined behaviour; the
      embedding makes both explicit: every array access is checked and
      yields [Undefined] with the kind of fault when it is out of range.
    - The globals of [caching.cpp] are gathered in the record [Machine];
      each routine is a function from machines to results.
    - The build-time macros [CACHE_BLOCKS] and [BLOCK_SIZE] are section
      variables. *)

From stdpp Require Import base list option numbers.

Local Open Scope Z_scope.

(** ** Undefined behaviour as an explicit result *)

Inductive Fault :=
  | RegisterIndex      (* registers[] indexed outside 0..REGISTERS-1 *)
  | CodeIndex          (* code[] indexed outside 0..CODE_SIZE-1 *)
  | DataIndex          (* data[] indexed outside 0..DATA_SIZE-1 *)
  | CacheIndex         (* data_cache[][] indexed out of range *)
  | DictionaryIndex    (* dictionary[] indexed out of range *)
  | SignedOverflow.    (* int incremented past INT_MAX *)

Inductive Result (A : Type) :=
  | Ok (a : A)
  | Undefined (f : Fault).

Arguments Ok {A} a.
Arguments Undefined {A} f.

#[global] Instance Result_ret : MRet Result := λ A a, Ok a.
#[global] Instance Result_bind : MBind Result := λ A B k r,
  match r with
  | Ok a => k a
  | Undefined f => Undefined f
  end.

Definition from_option {A} (f : Fault) (o : option A) : Result A :=
  match o with
  | Some a => Ok a
  | None => Undefined f
  end.

(** ** Integer conversions *)

Definition to_u8 (z : Z) : Z := z mod 256.
Definition to_u16 (z : Z) : Z := z mod 65536.
Definition to_ulong (z : Z) : Z := z mod 2 ^ 64.

(* (char)z with plain char signed *)
Definition to_s8 (z : Z) : Z :=
  let u := z mod 256 in if u <? 128 then u else u - 256.

(* (short)z *)
Definition to_s16 (z : Z) : Z :=
  let u := z mod 65536 in if u <? 32768 then u else u - 65536.

Definition INT_MAX : Z := 2147483647.

(** ** Constants and structures *)

Definition WORD_SIZE : Z := 2.
Definition CODE_SIZE : Z := 1024.
Definition REGISTERS : Z := 16.
Definition MEM_FILLER : Z := 0xFF.
Definition BRANCH_LIMIT : Z := 1000000.

Inductive Opcode :=
  | ADD_OPCODE
  | SUB_OPCODE
  | AND_OPCODE
  | OR_OPCODE
  | XOR_OPCODE
  | MOVE_OPCODE
  | SHIFT_OPCODE
  | BRANCH_OPCODE
  | NUM_OPCODES.

Inductive Phase :=
  | FETCH_INSTR
  | DECODE_INSTR
  | CALCULATE_EA
  | FETCH_OPERANDS
  | EXECUTE_INSTR
  | WRITE_BACK
  | NUM_PHASES
  | ILLEGAL_OPCODE
  | INFINITE_LOOP
  | ILLEGAL_ADDRESS.

#[global] Instance Phase_eq_dec : EqDecision Phase.
Proof. solve_decision. Defined.

#[global] Instance Opcode_eq_dec : EqDecision Opcode.
Proof. solve_decision. Defined.

(* current_phase < NUM_PHASES *)
Definition running (p : Phase) : bool :=
  match p with
  | FETCH_INSTR | DECODE_INSTR | CALCULATE_EA
  | FETCH_OPERANDS | EXECUTE_INSTR | WRITE_BACK => true
  | _ => false
  end.

(* struct STATE; IR[0] and IR[1] are the fields IR0 and IR1 *)
Record State := mkState {
  PC : Z;
  MDR : Z;
  MAR : Z;
  IR0 : Z;
  IR1 : Z;
  ALU_x : Z;
  ALU_y : Z;
  ALU_z : Z
}.

(* struct CACHE_ENTRY *)
Record CacheEntry := mkEntry {
  valid : bool;
  dirty : bool;
  ref_count : Z;
  tag : Z
}.

(* one memory word: unsigned char [WORD_SIZE], most significant byte first *)
Abbreviation Word := (Z * Z)%type.
Abbreviation Block := (list (Z * Z)).

(* the file-scope variables of caching.cpp *)
Record Machine := mkMachine {
  branch_count : Z;
  code : list Word;
  data : list Block;
  data_cache : list Block;
  dictionary : list CacheEntry;
  cache_hits : Z;
  current_ref_count : Z;
  registers : list Z;
  state : State
}.

(** Field updates. *)

Definition set_PC (v : Z) (s : State) : State :=
  mkState v (MDR s) (MAR s) (IR0 s) (IR1 s) (ALU_x s) (ALU_y s) (ALU_z s).
Definition set_MDR (v : Z) (s : State) : State :=
  mkState (PC s) v (MAR s) (IR0 s) (IR1 s) (ALU_x s) (ALU_y s) (ALU_z s).
Definition set_MAR (v : Z) (s : State) : State :=
  mkState (PC s) (MDR s) v (IR0 s) (IR1 s) (ALU_x s) (ALU_y s) (ALU_z s).
Definition set_IR (b0 b1 : Z) (s : State) : State :=
  mkState (PC s) (MDR s) (MAR s) b0 b1 (ALU_x s) (ALU_y s) (ALU_z s).
Definition set_ALU_x (v : Z) (s : State) : State :=
  mkState (PC s) (MDR s) (MAR s) (IR0 s) (IR1 s) v (ALU_y s) (ALU_z s).
Definition set_ALU_y (v : Z) (s : State) : State :=
  mkState (PC s) (MDR s) (MAR s) (IR0 s) (IR1 s) (ALU_x s) v (ALU_z s).
Definition set_ALU_z (v : Z) (s : State) : State :=
  mkState (PC s) (MDR s) (MAR s) (IR0 s) (IR1 s) (ALU_x s) (ALU_y s) v.

Definition set_valid (v : bool) (e : CacheEntry) : CacheEntry :=
  mkEntry v (dirty e) (ref_count e) (tag e).
Definition set_dirty (v : bool) (e : CacheEntry) : CacheEntry :=
  mkEntry (valid e) v (ref_count e) (tag e).
Definition set_ref_count (v : Z) (e : CacheEntry) : CacheEntry :=
  mkEntry (valid e) (dirty e) v (tag e).
Definition set_tag (v : Z) (e : CacheEntry) : CacheEntry :=
  mkEntry (valid e) (dirty e) (ref_count e) v.

Definition with_state (f : State → State) (m : Machine) : Machine :=
  mkMachine (branch_count m) (code m) (data m) (data_cache m) (dictionary m)
            (cache_hits m) (current_ref_count m) (registers m) (f (state m)).
Definition set_branch_count (v : Z) (m : Machine) : Machine :=
  mkMachine v (code m) (data m) (data_cache m) (dictionary m)
            (cache_hits m) (current_ref_count m) (registers m) (state m).
Definition set_code (v : list Word) (m : Machine) : Machine :=
  mkMachine (branch_count m) v (data m) (data_cache m) (dictionary m)
            (cache_hits m) (current_ref_count m) (registers m) (state m).
Definition set_data (v : list Block) (m : Machine) : Machine :=
  mkMachine (branch_count m) (code m) v (data_cache m) (dictionary m)
            (cache_hits m) (current_ref_count m) (registers m) (state m).
Definition set_data_cache (v : list Block) (m : Machine) : Machine :=
  mkMachine (branch_count m) (code m) (data m) v (dictionary m)
            (cache_hits m) (current_ref_count m) (registers m) (state m).
Definition set_dictionary (v : list CacheEntry) (m : Machine) : Machine :=
  mkMachine (branch_count m) (code m) (data m) (data_cache m) v
            (cache_hits m) (current_ref_count m) (registers m) (state m).
Definition set_cache_hits (v : Z) (m : Machine) : Machine :=
  mkMachine (branch_count m) (code m) (data m) (data_cache m) (dictionary m)
            v (current_ref_count m) (registers m) (state m).
Definition set_current_ref_count (v : Z) (m : Machine) : Machine :=
  mkMachine (branch_count m) (code m) (data m) (data_cache m) (dictionary m)
            (cache_hits m) v (registers m) (state m).
Definition set_registers (v : list Z) (m : Machine) : Machine :=
  mkMachine (branch_count m) (code m) (data m) (data_cache m) (dictionary m)
            (cache_hits m) (current_ref_count m) v (state m).

(** Checked array accesses. *)

Definition array_get {A} (f : Fault) (l : list A) (i : nat) : Result A :=
  from_option f (l !! i).

Definition array_put {A} (f : Fault) (l : list A) (i : nat) (x : A)
  : Result (list A) :=
  if decide (i < length l)%nat then Ok (<[i := x]> l) else Undefined f.

(* registers[reg] *)
Definition read_reg (reg : Z) (m : Machine) : Result Z :=
  array_get RegisterIndex (registers m) (Z.to_nat reg).

(* registers[reg] = v *)
Definition write_reg (reg v : Z) (m : Machine) : Result Machine :=
  rs ← array_put RegisterIndex (registers m) (Z.to_nat reg) v;
  Ok (set_registers rs m).

(* dictionary[block_id] *)
Definition dict_get (block_id : nat) (m : Machine) : Result CacheEntry :=
  array_get DictionaryIndex (dictionary m) block_id.

Definition dict_put (block_id : nat) (e : CacheEntry) (m : Machine)
  : Result Machine :=
  d ← array_put DictionaryIndex (dictionary m) block_id e;
  Ok (set_dictionary d m).

(* the BLOCK_SIZE words data[tag][0..] *)
Definition data_get (tag : Z) (m : Machine) : Result Block :=
  array_get DataIndex (data m) (Z.to_nat tag).

Definition data_put (tag : Z) (b : Block) (m : Machine) : Result Machine :=
  d ← array_put DataIndex (data m) (Z.to_nat tag) b;
  Ok (set_data d m).

(* the BLOCK_SIZE words data_cache[block_id][0..] *)
Definition cache_get (block_id : nat) (m : Machine) : Result Block :=
  array_get CacheIndex (data_cache m) block_id.

Definition cache_put (block_id : nat) (b : Block) (m : Machine)
  : Result Machine :=
  c ← array_put CacheIndex (data_cache m) block_id b;
  Ok (set_data_cache c m).

(** ** Data extraction support routines *)

Definition opcode (s : State) : Opcode :=
  match Z.shiftr (IR0 s) 5 with
  | 0 => ADD_OPCODE
  | 1 => SUB_OPCODE
  | 2 => AND_OPCODE
  | 3 => OR_OPCODE
  | 4 => XOR_OPCODE
  | 5 => MOVE_OPCODE
  | 6 => SHIFT_OPCODE
  | 7 => BRANCH_OPCODE
  | _ => NUM_OPCODES
  end.

Definition mode (s : State) : Z := Z.land (Z.shiftr (IR0 s) 2) 0x07.

Definition extract_literal (s : State) : Z :=
  let value := to_s8 (Z.land (IR1 s) 0x3F) in
  if Z.land value 0x20 =? 0 then value else to_s8 (Z.lor value 0xC0).

Definition get_reg1 (s : State) : Z :=
  let reg1 :=
    to_u8 (Z.lor (Z.shiftl (Z.land (IR0 s) 0x03) 2) (Z.shiftr (IR1 s) 6)) in
  Z.land reg1 0x0F.

(* reg = state.IR[1] >> 2; reg &= 0x0F; *)
Definition get_reg2 (s : State) : Z :=
  Z.land (to_u8 (Z.shiftr (IR1 s) 2)) 0x0F.

(* the fields the simulator extracts from an instruction word held in IR *)
Definition decode_fields (w : Z * Z) : Opcode * Z * Z * Z * Z :=
  let s := mkState 0 0 0 (fst w) (snd w) 0 0 0 in
  (opcode s, mode s, get_reg1 s, get_reg2 s, extract_literal s).

(** ** The assembler's instruction encoder ([assembler.cpp]) *)

Module Assembler.

(* enum class Opcode *)
Inductive Opcode := ADD | SUB | AND | OR | XOR | MOVE | SHIFT | BRANCH.

(* static_cast<unsigned char>(opcode) *)
Definition opcode_value (op : Opcode) : Z :=
  match op with
  | ADD => 0 | SUB => 1 | AND => 2 | OR => 3
  | XOR => 4 | MOVE => 5 | SHIFT => 6 | BRANCH => 7
  end.

(* class Instruction: type, reg1 and reg2 are unsigned char, immediate is
   a short *)
Record Instruction := mkInstruction {
  opcode : Opcode;
  type : Z;
  reg1 : Z;
  reg2 : Z;
  immediate : Z
}.

(* std::vector<unsigned char> encode() const *)
Definition encode (i : Instruction) : Z * Z :=
  (to_u8 (Z.lor (Z.lor (Z.shiftl (opcode_value (opcode i)) 5)
                       (Z.shiftl (type i) 2))
                (Z.shiftr (reg1 i) 2)),
   to_u8 (Z.lor (Z.lor (Z.shiftl (Z.land (reg1 i) 0x03) 6)
                       (Z.shiftl (reg2 i) 2))
                (Z.land (immediate i) 0x03))).

End Assembler.

(* the simulator's opcode for an opcode of the assembler *)
Definition simulated (op : Assembler.Opcode) : Opcode :=
  match op with
  | Assembler.ADD => ADD_OPCODE
  | Assembler.SUB => SUB_OPCODE
  | Assembler.AND => AND_OPCODE
  | Assembler.OR => OR_OPCODE
  | Assembler.XOR => XOR_OPCODE
  | Assembler.MOVE => MOVE_OPCODE
  | Assembler.SHIFT => SHIFT_OPCODE
  | Assembler.BRANCH => BRANCH_OPCODE
  end.

(* the numbers 0 .. n-1 *)
Definition below (n : nat) : list Z := Z.of_nat <$> seq 0 n.

(* decoding the encoding of (op, t, r1, r2, k) gives back the four fields
   other than the literal, for every field within its width *)
Definition fields_recovered (op : Assembler.Opcode) (t r1 r2 k : Z) : bool :=
  bool_decide
    (fst (decode_fields
            (Assembler.encode (Assembler.mkInstruction op t r1 r2 k)))
     = (simulated op, t, r1, r2)).

(** ** Cache processing routines *)

(* void write_block(int block_id) *)
Definition write_block (block_id : nat) (m : Machine) : Result Machine :=
  e ← dict_get block_id m;
  if valid e then
    m1 ← (if dirty e then
            payload ← cache_get block_id m;
            data_put (tag e) payload m
          else Ok m);
    dict_put block_id (set_ref_count 0 (set_dirty false (set_valid false e))) m1
  else Ok m.

(* the loop of removeLRU: [i] is the index of the head of [d], [LRU] and
   [block_id] are the loop's running minimum and its position *)
Fixpoint lru_scan (d : list CacheEntry) (i : nat) (LRU : Z) (block_id : nat)
  : nat :=
  match d with
  | [] => block_id
  | e :: d' =>
      if valid e && (ref_count e <? LRU)
      then lru_scan d' (S i) (ref_count e) i
      else lru_scan d' (S i) LRU block_id
  end.

(* int removeLRU() *)
Definition removeLRU (m : Machine) : Result (nat * Machine) :=
  let block_id := lru_scan (dictionary m) 0 0xFFFFFFFF 0 in
  m' ← write_block block_id m;
  Ok (block_id, m').

(* the first loop of fetch_block: the first entry that is not valid *)
Fixpoint first_free (d : list CacheEntry) (i : nat) : option nat :=
  match d with
  | [] => None
  | e :: d' => if valid e then first_free d' (S i) else Some i
  end.

(* int fetch_block(unsigned short tag) *)
Definition fetch_block (tag : Z) (m : Machine) : Result (nat * Machine) :=
  '(block_id, m1) ← match first_free (dictionary m) 0 with
                     | Some i => Ok (i, m)
                     | None => removeLRU m
                     end;
  blk ← data_get tag m1;
  m2 ← cache_put block_id blk m1;
  e ← dict_get block_id m2;
  m3 ← dict_put block_id (set_tag tag (set_dirty false (set_valid true e))) m2;
  Ok (block_id, m3).

(* bool find_block(unsigned long tag, int &block_id): [Some i] when found *)
Fixpoint find_block_from (wanted : Z) (d : list CacheEntry) (i : nat)
  : option nat :=
  match d with
  | [] => None
  | e :: d' =>
      if valid e && (tag e =? wanted) then Some i
      else find_block_from wanted d' (S i)
  end.

Definition find_block (wanted : Z) (m : Machine) : option nat :=
  find_block_from wanted (dictionary m) 0.

(* data_cache[block_id][offset] as a word *)
Definition cache_get_word (block_id : nat) (offset : Z) (m : Machine)
  : Result Word :=
  blk ← cache_get block_id m;
  array_get CacheIndex blk (Z.to_nat offset).

(* data_cache[block_id][offset][0] = hi; data_cache[block_id][offset][1] = lo; *)
Definition cache_put_word (block_id : nat) (offset : Z) (w : Word)
  (m : Machine) : Result Machine :=
  blk ← cache_get block_id m;
  blk' ← array_put CacheIndex blk (Z.to_nat offset) w;
  cache_put block_id blk' m.

(* dictionary[block_id].ref_count = current_ref_count++; *)
Definition stamp (block_id : nat) (m : Machine) : Result Machine :=
  e ← dict_get block_id m;
  m1 ← dict_put block_id (set_ref_count (current_ref_count m) e) m;
  Ok (set_current_ref_count (to_ulong (current_ref_count m + 1)) m1).

Section Geometry.

Variables CACHE_BLOCKS BLOCK_SIZE : Z.

Definition DATA_SIZE : Z := Z.quot 1024 BLOCK_SIZE.

Definition addr2tag (addr : Z) : Z := Z.quot addr BLOCK_SIZE.
Definition addr2offset (addr : Z) : Z := Z.rem addr BLOCK_SIZE.

(* the prelude shared by cache_write and cache_read: find the block or fetch
   it, counting a hit when it was found *)
Definition locate_block (m : Machine) : Result (nat * Machine) :=
  let wanted := addr2tag (MAR (state m)) in
  match find_block wanted m with
  | None => fetch_block (to_u16 wanted) m
  | Some block_id =>
      Ok (block_id, set_cache_hits (to_ulong (cache_hits m + 1)) m)
  end.

(* Phase cache_write() *)
Definition cache_write (m : Machine) : Result (Phase * Machine) :=
  let offset := to_u16 (addr2offset (MAR (state m))) in
  if MAR (state m) <? DATA_SIZE * BLOCK_SIZE * 2 then
    '(block_id, m1) ← locate_block m;
    let mdr := MDR (state m1) in
    m2 ← cache_put_word block_id offset
            (to_u8 (Z.shiftr mdr 8), to_u8 (Z.land mdr 0x00ff)) m1;
    m3 ← stamp block_id m2;
    e ← dict_get block_id m3;
    m4 ← dict_put block_id (set_dirty true e) m3;
    Ok (FETCH_INSTR, m4)
  else Ok (ILLEGAL_ADDRESS, m).

(* Phase cache_read() *)
Definition cache_read (m : Machine) : Result (Phase * Machine) :=
  let offset := to_u16 (addr2offset (MAR (state m))) in
  if MAR (state m) <? DATA_SIZE * BLOCK_SIZE * 2 then
    '(block_id, m1) ← locate_block m;
    '(hi, lo) ← cache_get_word block_id offset m1;
    let m2 := with_state (set_MDR (to_u16 (Z.lor (to_u16 (Z.shiftl hi 8)) lo))) m1 in
    m3 ← stamp block_id m2;
    Ok (WRITE_BACK, m3)
  else Ok (ILLEGAL_ADDRESS, m).

(** ** State processing routines *)

Definition fetch_instr (m : Machine) : Result (Phase * Machine) :=
  if PC (state m) <? CODE_SIZE then
    let m1 := with_state (set_MAR (PC (state m))) m in
    '(b0, b1) ← array_get CodeIndex (code m1) (Z.to_nat (MAR (state m1)));
    let mdr := to_u16 (Z.lor (to_u16 (Z.shiftl b0 8)) b1) in
    let m2 := with_state (set_MDR mdr) m1 in
    Ok (DECODE_INSTR,
        with_state (set_IR (to_u8 (Z.shiftr mdr 8)) (to_u8 (Z.land mdr 0x00ff))) m2)
  else Ok (ILLEGAL_ADDRESS, m).

Definition decode_instr (m : Machine) : Result (Phase * Machine) :=
  let s := state m in
  match opcode s with
  | ADD_OPCODE | SUB_OPCODE | AND_OPCODE | OR_OPCODE | XOR_OPCODE
  | SHIFT_OPCODE =>
      if 1 <? mode s then Ok (ILLEGAL_OPCODE, m) else Ok (FETCH_OPERANDS, m)
  | MOVE_OPCODE =>
      if Z.land (mode s) 0x02 =? 0 then Ok (CALCULATE_EA, m)
      else Ok (ILLEGAL_OPCODE, m)
  | BRANCH_OPCODE =>
      if mode s =? 0x07 then Ok (ILLEGAL_OPCODE, m) else Ok (FETCH_OPERANDS, m)
  | NUM_OPCODES => Ok (ILLEGAL_OPCODE, m)
  end.

Definition calculate_ea (m : Machine) : Result (Phase * Machine) :=
  let s := state m in
  let reg :=
    if negb (Z.land (mode s) 0x04 =? 0) then get_reg1 s
    else if negb (Z.land (mode s) 0x01 =? 0) then get_reg2 s
    else 0xFF in
  if reg =? 0xFF then Ok (FETCH_OPERANDS, m)
  else
    v ← read_reg reg m;
    Ok (FETCH_OPERANDS, with_state (set_MAR v) m).

Definition fetch_operands (m : Machine) : Result (Phase * Machine) :=
  m1 ← (if decide (opcode (state m) = MOVE_OPCODE) then Ok m
        else
          v ← read_reg (get_reg1 (state m)) m;
          Ok (with_state (set_ALU_x v) m));
  let s := state m1 in
  let reg := get_reg2 s in
  match opcode s with
  | ADD_OPCODE | SUB_OPCODE | AND_OPCODE | OR_OPCODE | XOR_OPCODE =>
      if mode s =? 0 then
        Ok (EXECUTE_INSTR, with_state (set_ALU_y (to_u16 (extract_literal s))) m1)
      else
        v ← read_reg reg m1;
        Ok (EXECUTE_INSTR, with_state (set_ALU_y v) m1)
  | MOVE_OPCODE =>
      if Z.land (mode s) 0x01 =? 0 then
        Ok (WRITE_BACK, with_state (set_MDR (to_u16 (extract_literal s))) m1)
      else if negb (Z.land (mode s) 0x04 =? 0) then
        v ← read_reg reg m1;
        Ok (WRITE_BACK, with_state (set_MDR v) m1)
      else cache_read m1
  | BRANCH_OPCODE =>
      Ok (EXECUTE_INSTR, with_state (set_ALU_y (to_u16 (extract_literal s))) m1)
  | _ => Ok (EXECUTE_INSTR, m1)
  end.

(* branch_count++; if (branch_count > BRANCH_LIMIT) rc = INFINITE_LOOP; *)
Definition count_branch (m : Machine) : Result (Phase * Machine) :=
  if branch_count m <? INT_MAX then
    let m1 := set_branch_count (branch_count m + 1) m in
    Ok (if BRANCH_LIMIT <? branch_count m1 then INFINITE_LOOP else WRITE_BACK, m1)
  else Undefined SignedOverflow.

(* the inner switch of execute_instr: is the conditional branch taken?
   registers[0] is read in the cases 1 to 6 only *)
Definition branch_taken (md x : Z) (m : Machine) : Result bool :=
  let compare (test : Z → Z → bool) : Result bool :=
    r0 ← read_reg 0 m;
    Ok (test (to_s16 x) (to_s16 r0)) in
  match md with
  | 1 => compare Z.eqb
  | 2 => compare (λ a b, negb (a =? b))
  | 3 => compare Z.ltb
  | 4 => compare Z.gtb
  | 5 => compare Z.leb
  | 6 => compare Z.geb
  | _ => Ok false
  end.

Definition execute_instr (m : Machine) : Result (Phase * Machine) :=
  let s := state m in
  let alu z := Ok (WRITE_BACK, with_state (set_ALU_z (to_u16 z)) m) in
  match opcode s with
  | ADD_OPCODE => alu (to_s16 (ALU_x s) + to_s16 (ALU_y s))
  | SUB_OPCODE => alu (to_s16 (ALU_x s) - to_s16 (ALU_y s))
  | AND_OPCODE => alu (Z.land (ALU_x s) (ALU_y s))
  | OR_OPCODE => alu (Z.lor (ALU_x s) (ALU_y s))
  | XOR_OPCODE => alu (Z.lxor (ALU_x s) (ALU_y s))
  | SHIFT_OPCODE =>
      if mode s =? 0 then alu (Z.shiftr (ALU_x s) 1)
      else alu (Z.shiftl (ALU_x s) 1)
  | BRANCH_OPCODE =>
      if mode s =? 0 then
        count_branch (with_state (set_ALU_z (ALU_x s)) m)
      else
        branch ← branch_taken (mode s) (ALU_x s) m;
        if (branch : bool) then
          count_branch
            (with_state (set_ALU_z (to_u16 (PC s + ALU_y s - 1))) m)
        else Ok (WRITE_BACK, with_state (set_ALU_z (PC s)) m)
  | _ => Ok (WRITE_BACK, m)
  end.

Definition write_back (m : Machine) : Result (Phase * Machine) :=
  let s := state m in
  let reg := get_reg1 s in
  '(rc, m1) ← match opcode s with
              | ADD_OPCODE | SUB_OPCODE | AND_OPCODE | OR_OPCODE | XOR_OPCODE
              | SHIFT_OPCODE =>
                  m' ← write_reg reg (ALU_z s) m;
                  Ok (FETCH_INSTR, m')
              | BRANCH_OPCODE =>
                  Ok (FETCH_INSTR, with_state (set_PC (ALU_z s)) m)
              | MOVE_OPCODE =>
                  if negb (Z.land (mode s) 0x04 =? 0) then cache_write m
                  else
                    m' ← write_reg reg (MDR s) m;
                    Ok (FETCH_INSTR, m')
              | NUM_OPCODES => Ok (FETCH_INSTR, m)
              end;
  Ok (rc, with_state (set_PC (to_u16 (PC (state m1) + 1))) m1).

(* the table control_unit[]; only the six running phases index it *)
Definition control_unit (p : Phase) (m : Machine) : Result (Phase * Machine) :=
  match p with
  | FETCH_INSTR => fetch_instr m
  | DECODE_INSTR => decode_instr m
  | CALCULATE_EA => calculate_ea m
  | FETCH_OPERANDS => fetch_operands m
  | EXECUTE_INSTR => execute_instr m
  | WRITE_BACK => write_back m
  | _ => Ok (p, m)
  end.

(* while (current_phase < NUM_PHASES)
     current_phase = control_unit[current_phase]();
   [run n] performs at most [n] turns of the loop *)
Fixpoint run (fuel : nat) (p : Phase) (m : Machine) : Result (Phase * Machine) :=
  match fuel with
  | O => Ok (p, m)
  | S fuel' =>
      if running p then
        '(p', m') ← control_unit p m;
        run fuel' p' m'
      else Ok (p, m)
  end.

(** ** General routines *)

Definition initialize_system : Machine :=
  let blocks := Z.to_nat BLOCK_SIZE in
  {| branch_count := 0;
     code := replicate (Z.to_nat CODE_SIZE) (MEM_FILLER, MEM_FILLER);
     data := replicate (Z.to_nat DATA_SIZE)
               (replicate blocks (MEM_FILLER, MEM_FILLER));
     data_cache := replicate (Z.to_nat CACHE_BLOCKS)
                     (replicate blocks (MEM_FILLER, MEM_FILLER));
     dictionary := replicate (Z.to_nat CACHE_BLOCKS) (mkEntry false false 0 0);
     cache_hits := 0;
     current_ref_count := 1;
     registers := replicate (Z.to_nat REGISTERS) 0;
     state := mkState 0 0 0 0 0 0 0 0 |}.

(* fread(code, 1, CODE_SIZE * WORD_SIZE, code_file): the bytes of the object
   file replace the leading bytes of code[][]; [i] is the byte offset of the
   head of [c] *)
Fixpoint load_code_from (bytes : list Z) (c : list Word) (i : nat)
  : list Word :=
  match c with
  | [] => []
  | (b0, b1) :: c' =>
      (default b0 (bytes !! i), default b1 (bytes !! S i))
        :: load_code_from bytes c' (S (S i))
  end.

Definition load_code (bytes : list Z) (m : Machine) : Machine :=
  set_code (load_code_from bytes (code m) 0) m.

(* insert_data, after the hexadecimal digits have been read: each word goes
   to data[data_index / BLOCK_SIZE][data_index % BLOCK_SIZE] while
   data_index < DATA_SIZE * BLOCK_SIZE, and the rest is dropped *)
Fixpoint insert_words (words : list Word) (data_index : Z) (d : list Block)
  : list Block :=
  match words with
  | [] => d
  | w :: words' =>
      if data_index <? DATA_SIZE * BLOCK_SIZE then
        insert_words words' (data_index + 1)
          (alter (λ blk, <[Z.to_nat (Z.rem data_index BLOCK_SIZE) := w]> blk)
                 (Z.to_nat (Z.quot data_index BLOCK_SIZE)) d)
      else d
  end.

Definition load_data (words : list Word) (m : Machine) : Machine :=
  set_data (insert_words words 0 (data m)) m.

(* initialize_system(); load_files(...) *)
Definition boot (bytes : list Z) (words : list Word) : Machine :=
  load_data words (load_code bytes initialize_system).

(* for (i = 0; i < CACHE_BLOCKS; i++) write_block(i); *)
Fixpoint flush_from (i : nat) (count : nat) (m : Machine) : Result Machine :=
  match count with
  | O => Ok m
  | S count' =>
      m' ← write_block i m;
      flush_from (S i) count' m'
  end.

Definition flush (m : Machine) : Result Machine :=
  flush_from 0 (Z.to_nat CACHE_BLOCKS) m.

(* main, from the loaded machine to the machine whose memory is printed *)
Definition simulate (fuel : nat) (bytes : list Z) (words : list Word)
  : Result (Phase * Machine) :=
  '(p, m) ← run fuel FETCH_INSTR (boot bytes words);
  m' ← flush m;
  Ok (p, m').

(** The operations of the cache, for statements about sequences of them.
    An address or a value is stored in the 16-bit latch MAR or MDR first. *)
Inductive CacheOp :=
  | OpRead (addr : Z)              (* MAR = addr; cache_read() *)
  | OpWrite (addr value : Z)       (* MAR = addr; MDR = value; cache_write() *)
  | OpFill (addr : Z)              (* MAR = addr; find the block or fetch it *)
  | OpEvict                        (* removeLRU() *)
  | OpWriteBlock (block_id : nat)  (* write_block(block_id) *)
  | OpFlush.                       (* write_block(i) for every i *)

Definition cache_op (op : CacheOp) (m : Machine) : Result Machine :=
  match op with
  | OpRead addr =>
      '(_, m') ← cache_read (with_state (set_MAR (to_u16 addr)) m);
      Ok m'
  | OpWrite addr value =>
      '(_, m') ← cache_write (with_state (set_MDR (to_u16 value))
                                (with_state (set_MAR (to_u16 addr)) m));
      Ok m'
  | OpFill addr =>
      '(_, m') ← locate_block (with_state (set_MAR (to_u16 addr)) m);
      Ok m'
  | OpEvict =>
      '(_, m') ← removeLRU m;
      Ok m'
  | OpWriteBlock block_id => write_block block_id m
  | OpFlush => flush m
  end.

Fixpoint cache_ops (ops : list CacheOp) (m : Machine) : Result Machine :=
  match ops with
  | [] => Ok m
  | op :: ops' =>
      m' ← cache_op op m;
      cache_ops ops' m'
  end.

End Geometry.

(** ** Properties of machine states used in the statements *)

(* every valid entry that is not dirty holds the words of its memory block *)
Definition clean_entries_match (m : Machine) : Prop :=
  ∀ i e, dictionary m !! i = Some e → valid e = true → dirty e = false →
    ∃ blk, data_cache m !! i = Some blk ∧
           data m !! Z.to_nat (tag e) = Some blk.

(* no memory block is held by two valid entries *)
Definition tags_unique (m : Machine) : Prop :=
  ∀ i j e e', dictionary m !! i = Some e → dictionary m !! j = Some e' →
    valid e = true → valid e' = true → tag e = tag e' → i = j.

Definition tags_nonneg (m : Machine) : Prop :=
  ∀ i e, dictionary m !! i = Some e → valid e = true → 0 ≤ tag e.

(* the stamps of the valid entries, the entry [skip] apart, are pairwise
   distinct *)
Definition stamps_distinct_except (skip : option nat) (m : Machine) : Prop :=
  ∀ i j e e', dictionary m !! i = Some e → dictionary m !! j = Some e' →
    valid e = true → valid e' = true → Some i ≠ skip → Some j ≠ skip →
    ref_count e = ref_count e' → i = j.

(* the stamps of the valid entries, the entry [skip] apart, are below the
   next stamp *)
Definition stamps_below_except (skip : option nat) (m : Machine) : Prop :=
  ∀ i e, dictionary m !! i = Some e → valid e = true → Some i ≠ skip →
    ref_count e < current_ref_count m.

(* the stamps of the valid entries are pairwise distinct *)
Definition stamps_distinct (m : Machine) : Prop :=
  ∀ i j e e', dictionary m !! i = Some e → dictionary m !! j = Some e' →
    valid e = true → valid e' = true → ref_count e = ref_count e' → i = j.

(* the stamp of every valid entry is below the next stamp *)
Definition stamps_below (m : Machine) : Prop :=
  ∀ i e, dictionary m !! i = Some e → valid e = true →
    ref_count e < current_ref_count m.

(* the invariant of the cache between two operations *)
Definition coherent (m : Machine) : Prop :=
  tags_nonneg m ∧ tags_unique m ∧ clean_entries_match m.

Definition cache_ok (m : Machine) : Prop :=
  coherent m ∧ stamps_distinct_except None m ∧ stamps_below_except None m.

(* what a cache routine leaves alone: the processor and the code *)
Definition same_processor (m m' : Machine) : Prop :=
  branch_count m' = branch_count m ∧ code m' = code m ∧
  registers m' = registers m ∧ state m' = state m.

(* what the phases before WRITE_BACK leave alone *)
Definition kept (m m' : Machine) : Prop :=
  PC (state m') = PC (state m) ∧ IR0 (state m') = IR0 (state m) ∧
  IR1 (state m') = IR1 (state m) ∧ registers m' = registers m.

(* the dictionary entry left by write_block *)
Definition released (e : CacheEntry) : CacheEntry :=
  mkEntry false false 0 (tag e).

(* the dictionary entry left by fetch_block *)
Definition filled (t : Z) (e : CacheEntry) : CacheEntry :=
  mkEntry true false (ref_count e) t.

(* a routine that marks no entry dirty *)
Definition no_new_dirty (m m' : Machine) : Prop :=
  ∀ i e', dictionary m' !! i = Some e' → valid e' = true → dirty e' = true →
    ∃ e, dictionary m !! i = Some e ∧ valid e = true ∧ dirty e = true ∧
         tag e' = tag e.

(* the valid entry [b] has the smallest stamp of all valid entries *)
Definition least_recently_used (d : list CacheEntry) (b : nat) : Prop :=
  ∃ e, d !! b = Some e ∧ valid e = true ∧
    ∀ j e', d !! j = Some e' → valid e' = true → ref_count e ≤ ref_count e'.

(* the table of conditional branches: R[r1] against R[0], both signed *)
Definition branch_condition (md a b : Z) : Prop :=
  (md = 1 ∧ a = b) ∨ (md = 2 ∧ a ≠ b) ∨ (md = 3 ∧ a < b) ∨
  (md = 4 ∧ a > b) ∨ (md = 5 ∧ a <= b) ∨ (md = 6 ∧ a >= b).

(* a 16-bit quantity *)
Definition u16 (z : Z) : Prop := 0 ≤ z < 65536.

(** The invariant of the simulator. *)

Definition registers_ok (m : Machine) : Prop :=
  length (registers m) = Z.to_nat REGISTERS ∧ Forall u16 (registers m).

Definition latches_ok (s : State) : Prop :=
  u16 (PC s) ∧ u16 (MDR s) ∧ u16 (MAR s) ∧ u16 (ALU_x s) ∧ u16 (ALU_z s).

(* the number of cache accesses made so far *)
Definition accesses (m : Machine) : Z := current_ref_count m - 1.

(* how many cache accesses a run can have made when the control unit is
   about to enter the phase [p]: every instruction makes at most one access,
   and at most CODE_SIZE instructions run between two taken branches *)
Definition access_budget (p : Phase) (m : Machine) : Prop :=
  let s := state m in
  let base := CODE_SIZE * branch_count m in
  match p with
  | FETCH_INSTR =>
      branch_count m ≤ BRANCH_LIMIT ∧ accesses m ≤ base + PC s
  | DECODE_INSTR | CALCULATE_EA | FETCH_OPERANDS | EXECUTE_INSTR =>
      branch_count m ≤ BRANCH_LIMIT ∧ PC s < CODE_SIZE ∧
      accesses m ≤ base + PC s
  | WRITE_BACK =>
      branch_count m ≤ BRANCH_LIMIT ∧ PC s < CODE_SIZE ∧
      match opcode s with
      | BRANCH_OPCODE => accesses m ≤ base + to_u16 (ALU_z s + 1)
      | MOVE_OPCODE =>
          if Z.land (mode s) 0x04 =? 0 then accesses m ≤ base + PC s + 1
          else accesses m ≤ base + PC s
      | _ => accesses m ≤ base + PC s
      end
  | _ =>
      branch_count m ≤ BRANCH_LIMIT + 1 ∧ accesses m ≤ base + PC s
  end.

Definition sim_inv (p : Phase) (m : Machine) : Prop :=
  registers_ok m ∧ latches_ok (state m) ∧ cache_ok m ∧
  0 ≤ branch_count m ∧ 1 ≤ current_ref_count m ∧ access_budget p m.

(** ** Example programs *)

(* ADD R1, #3; ADD R1, #4 *)
Definition add_program : list Z := [0x00; 0x43; 0x00; 0x44].

(* ADD R0, #0; JUMP R0: with R0 = 0 the jump at address 1 targets itself *)
Definition self_jump_program : list Z := [0x00; 0x00; 0xE0; 0x00].

(* MOVE R3, #21; MOVE [R2], R3 (mode 5); MOVE R4, [R2] (mode 1);
   MOVE R2, #8; MOVE [R2], R3 *)
Definition move_program : list Z :=
  [0xA0; 0xD5; 0xB4; 0x8C; 0xA5; 0x08; 0xA0; 0x88; 0xB4; 0x8C].

(* BEQ R1, +2: taken when R1 = R0 *)
Definition beq_program : list Z := [0xE4; 0x42].

(** ** Example machines, with one cache block of eight words *)

Definition result_or {A} (d : A) (r : Result A) : A :=
  match r with
  | Ok a => a
  | Undefined _ => d
  end.

(* the phase and the machine after [fuel] turns of the control unit on the
   program [bytes] *)
Definition after (fuel : nat) (bytes : list Z) : Phase * Machine :=
  result_or (FETCH_INSTR, initialize_system 1 8)
    (run 8 fuel FETCH_INSTR (boot 1 8 bytes [])).

(* a machine holding the word 0xB400, MOVE with mode 5, in IR *)
Definition move_mode_5 : Machine :=
  with_state (set_IR 0xB4 0x00) (initialize_system 1 8).

(* a machine about to fetch the first word after add_program *)
Definition past_add_program : Machine :=
  with_state (set_PC 2) (boot 1 8 add_program []).

(* the machine after the two first MOVEs of move_program, and after the block
   1 has then been fetched *)
Definition two_moves : Machine := snd (after 10 move_program).
Definition two_moves_fetched : Machine :=
  snd (result_or (0%nat, two_moves) (fetch_block 1 two_moves)).

(* BEQ R1, +2 at WRITE_BACK and after it *)
Definition beq_fetched : Machine := boot 1 8 beq_program [].
Definition beq_at_write_back : Machine := snd (after 4 beq_program).
Definition beq_retired : Machine := snd (after 5 beq_program).

(* the first JUMP R0 of self_jump_program at EXECUTE_INSTR and after it *)
Definition jump_at_execute : Machine := snd (after 8 self_jump_program).
Definition jump_executed : Machine := snd (after 9 self_jump_program).

(* some cache operations and the machine they leave after the two MOVEs *)
Definition some_cache_ops : list CacheOp :=
  [OpRead 100; OpWrite 8 7; OpFill 3; OpEvict; OpWrite 1 9; OpFlush].
Definition two_moves_and_ops : Machine :=
  result_or two_moves (cache_ops 1 8 some_cache_ops two_moves).

(** ** The extents of the arrays and the memory seen through the cache *)

(* the arrays have the extents of their declarations, and every valid entry
   names a block of the data memory *)
Definition well_shaped (CB BS : Z) (m : Machine) : Prop :=
  length (code m) = Z.to_nat CODE_SIZE ∧
  length (data m) = Z.to_nat (DATA_SIZE BS) ∧
  Forall (λ blk : Block, length blk = Z.to_nat BS) (data m) ∧
  length (data_cache m) = Z.to_nat CB ∧
  Forall (λ blk : Block, length blk = Z.to_nat BS) (data_cache m) ∧
  length (dictionary m) = Z.to_nat CB ∧
  ∀ i e, dictionary m !! i = Some e → valid e = true → tag e < DATA_SIZE BS.

(* the block [t] as the processor sees it: the copy in the cache when the
   block is there, the block of the data memory otherwise *)
Definition block_at (m : Machine) (t : Z) : option Block :=
  match find_block t m with
  | Some b => data_cache m !! b
  | None => data m !! Z.to_nat t
  end.

(* the word at the address [addr] as the processor sees it *)
Definition word_at (BS : Z) (m : Machine) (addr : Z) : option Word :=
  blk ← block_at m (addr2tag BS addr);
  blk !! Z.to_nat (addr2offset BS addr).

(* the word at the address [addr] in the data memory, the cache apart *)
Definition data_word (BS : Z) (m : Machine) (addr : Z) : option Word :=
  blk ← data m !! Z.to_nat (addr2tag BS addr);
  blk !! Z.to_nat (addr2offset BS addr).

(* the machines reached from the loaded initial state by a run of the
   simulator followed by cache operations *)
Definition reachable (CB BS : Z) (m : Machine) : Prop :=
  ∃ bytes words fuel p m0 ops,
    run BS fuel FETCH_INSTR (boot CB BS bytes words) = Ok (p, m0) ∧
    cache_ops CB BS ops m0 = Ok m.

(* MDR as cache_read composes it from the two bytes of a word *)
Definition word_value (w : Word) : Z :=
  to_u16 (Z.lor (to_u16 (Z.shiftl (fst w) 8)) (snd w)).

(* the two bytes cache_write stores for the value of MDR *)
Definition value_word (v : Z) : Word :=
  (to_u8 (Z.shiftr v 8), to_u8 (Z.land v 0x00ff)).

(* a run has come to its end: the loop of main has left, or the program has
   no defined behaviour *)
Definition halted (r : Result (Phase * Machine)) : Prop :=
  match r with
  | Ok (p, _) => running p = false
  | Undefined _ => True
  end.

(** * Proofs *)

(** ** Results *)

Lemma bind_Ok {A B} (r : Result A) (k : A → Result B) (b : B) :
  r ≫= k = Ok b → ∃ a, r = Ok a ∧ k a = Ok b.
Proof. destruct r as [a|f]; simpl; [eauto | discriminate]. Qed.

Lemma bind_Undefined {A B} (r : Result A) (k : A → Result B) (f : Fault) :
  r ≫= k = Undefined f →
  r = Undefined f ∨ ∃ a, r = Ok a ∧ k a = Undefined f.
Proof. destruct r as [a|f']; simpl; [eauto | intros [= ->]; auto]. Qed.

Lemma array_get_Ok {A} f (l : list A) i x :
  array_get f l i = Ok x ↔ l !! i = Some x.
Proof.
  unfold array_get, from_option. destruct (l !! i); split; congruence.
Qed.

Lemma array_put_Ok {A} f (l : list A) i x l' :
  array_put f l i x = Ok l' ↔ (i < length l)%nat ∧ l' = <[i := x]> l.
Proof.
  unfold array_put. case_decide; split; try intros [? ?]; try congruence;
    try lia. intros [= <-]. auto.
Qed.

Lemma array_get_fault {A} f (l : list A) i f' :
  array_get f l i = Undefined f' → f' = f ∧ l !! i = None.
Proof.
  unfold array_get, from_option. destruct (l !! i); [discriminate|].
  intros [= ->]. auto.
Qed.

Lemma array_put_fault {A} f (l : list A) i x f' :
  array_put f l i x = Undefined f' → f' = f ∧ (length l ≤ i)%nat.
Proof.
  unfold array_put. case_decide; [discriminate|]. intros [= ->].
  split; [done | lia].
Qed.
(** ** Bit fields *)

Lemma land_ones_bound (x : Z) (n : Z) : 0 ≤ n → 0 ≤ Z.land x (Z.ones n) < 2 ^ n.
Proof. intros Hn. rewrite Z.land_ones by done. apply Z.mod_pos_bound. lia. Qed.

Lemma get_reg1_bound s : 0 ≤ get_reg1 s < REGISTERS.
Proof. unfold get_reg1. apply (land_ones_bound _ 4). lia. Qed.

Lemma get_reg2_bound s : 0 ≤ get_reg2 s < REGISTERS.
Proof. unfold get_reg2. apply (land_ones_bound _ 4). lia. Qed.

Lemma mode_bound s : 0 ≤ mode s < 8.
Proof. unfold mode. apply (land_ones_bound _ 3). lia. Qed.

Lemma mode_cases s :
  mode s = 0 ∨ mode s = 1 ∨ mode s = 2 ∨ mode s = 3 ∨
  mode s = 4 ∨ mode s = 5 ∨ mode s = 6 ∨ mode s = 7.
Proof. pose proof (mode_bound s). lia. Qed.

(** ** The decoder *)

Lemma decode_move m :
  opcode (state m) = MOVE_OPCODE →
  decode_instr m =
    Ok (if Z.land (mode (state m)) 0x02 =? 0 then CALCULATE_EA
        else ILLEGAL_OPCODE, m).
Proof.
  intros Hop. unfold decode_instr. rewrite Hop.
  by destruct (Z.land (mode (state m)) 2 =? 0).
Qed.

(** C3 (as amended).  For every MOVE instruction the decoder yields
    [ILLEGAL_OPCODE] exactly for the modes with bit 1 set (2, 3, 6 and 7);
    the modes 0, 1, 4 and 5, mode 5 included, go on to [CALCULATE_EA]. *)
Theorem decode_move_rejects_bit1 (m : Machine) :
  opcode (state m) = MOVE_OPCODE →
  (mode (state m) ∈ [2; 3; 6; 7] → decode_instr m = Ok (ILLEGAL_OPCODE, m)) ∧
  (mode (state m) ∈ [0; 1; 4; 5] → decode_instr m = Ok (CALCULATE_EA, m)) ∧
  (mode (state m) = 5 → decode_instr m = Ok (CALCULATE_EA, m)).
Proof.
  intros Hop. rewrite (decode_move m Hop).
  split; [|split].
  - intros Hm. apply list_elem_of_In in Hm. simpl in Hm.
    destruct Hm as [<-|[<-|[<-|[<-|[]]]]]; reflexivity.
  - intros Hm. apply list_elem_of_In in Hm. simpl in Hm.
    destruct Hm as [<-|[<-|[<-|[<-|[]]]]]; reflexivity.
  - intros ->. reflexivity.
Qed.
(** ** Code memory and the filler word *)

Lemma load_code_from_beyond bytes c i k w :
  (length bytes ≤ i + 2 * k)%nat → c !! k = Some w →
  load_code_from bytes c i !! k = Some w.
Proof.
  revert i k. induction c as [|[b0 b1] c IH]; intros i k Hlen Hk; [done|].
  destruct k as [|k]; simpl in *.
  - inversion Hk; subst.
    rewrite !lookup_ge_None_2 by lia. done.
  - apply IH; [lia | done].
Qed.

Lemma boot_code_filler CB BS bytes words (k : nat) :
  (length bytes ≤ 2 * k)%nat → (k < 1024)%nat →
  code (boot CB BS bytes words) !! k = Some (MEM_FILLER, MEM_FILLER).
Proof.
  intros Hlen Hk.
  unfold boot, load_data, load_code, initialize_system.
  cbn [code set_data set_code].
  apply load_code_from_beyond; [lia|].
  apply lookup_replicate_2. unfold CODE_SIZE. lia.
Qed.

Lemma decode_filler m :
  IR0 (state m) = MEM_FILLER → decode_instr m = Ok (ILLEGAL_OPCODE, m).
Proof.
  intros H. unfold decode_instr, opcode, mode. rewrite H. reflexivity.
Qed.

Lemma fetch_filler m :
  0 ≤ PC (state m) < CODE_SIZE →
  code m !! Z.to_nat (PC (state m)) = Some (MEM_FILLER, MEM_FILLER) →
  fetch_instr m =
    Ok (DECODE_INSTR,
        with_state (set_IR MEM_FILLER MEM_FILLER)
          (with_state (set_MDR 0xFFFF)
             (with_state (set_MAR (PC (state m))) m))).
Proof.
  intros HPC Hcode. unfold fetch_instr.
  destruct (Z.ltb_spec (PC (state m)) CODE_SIZE) as [_|?]; [|lia].
  cbn [with_state state set_MAR MAR code]. unfold array_get. rewrite Hcode.
  reflexivity.
Qed.

Lemma run_stopped BS fuel p m :
  running p = false → run BS fuel p m = Ok (p, m).
Proof. intros Hp. destruct fuel; simpl; [done|]. by rewrite Hp. Qed.

Lemma run_step BS fuel p m :
  running p = true →
  run BS (S fuel) p m = control_unit BS p m ≫= λ '(p', m'), run BS fuel p' m'.
Proof. intros Hp. simpl. by rewrite Hp. Qed.

(** C7.  Code memory is filled with [MEM_FILLER] at start-up and the loader
    replaces only the bytes of the object file; at every word of code memory
    the program did not reach, fetching and decoding find the word 0xFFFF and
    the run ends there with [ILLEGAL_OPCODE], whatever fuel it is given. *)
Theorem filler_halts_with_illegal_opcode
  (CB BS : Z) (bytes : list Z) (words : list Word) (m : Machine) :
  code m = code (boot CB BS bytes words) →
  0 ≤ PC (state m) < CODE_SIZE →
  (length bytes ≤ 2 * Z.to_nat (PC (state m)))%nat →
  ∃ m', (∀ fuel, (2 ≤ fuel)%nat →
           run BS fuel FETCH_INSTR m = Ok (ILLEGAL_OPCODE, m')) ∧
        IR0 (state m') = MEM_FILLER ∧ IR1 (state m') = MEM_FILLER ∧
        PC (state m') = PC (state m).
Proof.
  intros Hcode HPC Hlen.
  assert (Hw : code m !! Z.to_nat (PC (state m)) = Some (MEM_FILLER, MEM_FILLER)).
  { rewrite Hcode. apply boot_code_filler; [done|]. unfold CODE_SIZE in HPC. lia. }
  eexists. split; [|split; [|split]].
  - intros [|[|fuel]] Hfuel; try lia.
    rewrite run_step by done. cbn [control_unit].
    rewrite (fetch_filler m HPC Hw). cbn [mbind Result_bind].
    rewrite run_step by done. cbn [control_unit].
    rewrite decode_filler by reflexivity. cbn [mbind Result_bind].
    apply run_stopped. reflexivity.
  - reflexivity.
  - reflexivity.
  - reflexivity.
Qed.
(** ** Which faults a routine can raise *)

Ltac fault_step :=
  match goal with
  | H : Ok _ = Undefined _ |- _ => discriminate H
  | H : Undefined _ = Undefined _ |- _ => injection H as <-
  | H : array_get _ _ _ = Undefined _ |- _ =>
      apply array_get_fault in H; destruct H as [H _];
      first [discriminate H | subst]
  | H : array_put _ _ _ _ = Undefined _ |- _ =>
      apply array_put_fault in H; destruct H as [H _];
      first [discriminate H | subst]
  | H : _ ≫= _ = Undefined _ |- _ =>
      apply bind_Undefined in H; destruct H as [H | (? & _ & H)]
  | H : (let '(_, _) := ?x in _) = Undefined _ |- _ => destruct x
  | H : (if ?b then _ else _) = Undefined _ |- _ => destruct b
  | H : match ?x with _ => _ end = Undefined _ |- _ => destruct x
  end.

Ltac fault_tac := repeat fault_step; try discriminate; try done.

Lemma write_block_fault b m f :
  write_block b m = Undefined f → f ≠ RegisterIndex.
Proof.
  unfold write_block, dict_get, dict_put, cache_get, data_put.
  intros H. fault_tac.
Qed.

Lemma fetch_block_fault t m f :
  fetch_block t m = Undefined f → f ≠ RegisterIndex.
Proof.
  unfold fetch_block, removeLRU, dict_get, dict_put, cache_put, data_get.
  intros H. fault_tac; eauto using write_block_fault.
Qed.

Lemma stamp_fault b m f : stamp b m = Undefined f → f ≠ RegisterIndex.
Proof. unfold stamp, dict_get, dict_put. intros H. fault_tac. Qed.

Lemma locate_block_fault BS m f :
  locate_block BS m = Undefined f → f ≠ RegisterIndex.
Proof.
  unfold locate_block. intros H. fault_tac; eauto using fetch_block_fault.
Qed.

Lemma cache_read_fault BS m f :
  cache_read BS m = Undefined f → f ≠ RegisterIndex.
Proof.
  unfold cache_read, cache_get_word, cache_get. intros H.
  fault_tac; eauto using locate_block_fault, stamp_fault.
Qed.

Lemma cache_write_fault BS m f :
  cache_write BS m = Undefined f → f ≠ RegisterIndex.
Proof.
  unfold cache_write, cache_put_word, cache_get, cache_put, dict_get, dict_put.
  intros H. fault_tac; eauto using locate_block_fault, stamp_fault.
Qed.

Lemma read_reg_in_range reg m :
  length (registers m) = Z.to_nat REGISTERS → 0 ≤ reg < REGISTERS →
  ∃ v, read_reg reg m = Ok v.
Proof.
  intros Hlen Hreg. unfold read_reg, array_get.
  destruct (lookup_lt_is_Some_2 (registers m) (Z.to_nat reg)) as [v ->];
    [lia | by exists v].
Qed.

Lemma write_reg_in_range reg v m :
  length (registers m) = Z.to_nat REGISTERS → 0 ≤ reg < REGISTERS →
  write_reg reg v m = Ok (set_registers (<[Z.to_nat reg := v]> (registers m)) m).
Proof.
  intros Hlen Hreg. unfold write_reg, array_put.
  rewrite decide_True by lia. reflexivity.
Qed.

Lemma control_unit_register_fault BS p m :
  length (registers m) = Z.to_nat REGISTERS →
  control_unit BS p m ≠ Undefined RegisterIndex.
Proof.
  intros Hlen H.
  pose proof (get_reg1_bound (state m)) as H1.
  pose proof (get_reg2_bound (state m)) as H2.
  destruct (read_reg_in_range (get_reg1 (state m)) m Hlen H1) as [v1 Hv1].
  destruct (read_reg_in_range (get_reg2 (state m)) m Hlen H2) as [v2 Hv2].
  destruct (read_reg_in_range 0 m Hlen ltac:(unfold REGISTERS; lia)) as [v0 Hv0].
  destruct p; cbn [control_unit] in H; try discriminate.
  - unfold fetch_instr in H. fault_tac.
  - unfold decode_instr in H. fault_tac.
  - unfold calculate_ea in H. cbv zeta in H. revert H.
    destruct (negb (Z.land (mode (state m)) 4 =? 0));
      [|destruct (negb (Z.land (mode (state m)) 1 =? 0))];
      intros H; cbv iota in H; change (255 =? 255) with true in H;
      cbv iota in H; rewrite ?Hv1, ?Hv2 in H; fault_tac.
  - unfold fetch_operands in H.
    rewrite Hv1 in H. cbn [mbind Result_bind] in H.
    destruct (decide (opcode (state m) = MOVE_OPCODE)) as [Hop|Hop];
      cbn [mbind Result_bind with_state state registers] in H.
    + rewrite Hop, Hv2 in H. fault_tac.
      by apply cache_read_fault in H.
    + change (get_reg2 (set_ALU_x v1 (state m))) with (get_reg2 (state m)) in H.
      change (opcode (set_ALU_x v1 (state m))) with (opcode (state m)) in H.
      change (read_reg (get_reg2 (state m)) (with_state (set_ALU_x v1) m))
        with (read_reg (get_reg2 (state m)) m) in H.
      rewrite Hv2 in H. fault_tac.
  - unfold execute_instr, branch_taken, count_branch in H.
    rewrite Hv0 in H. fault_tac.
  - unfold write_back in H.
    rewrite !write_reg_in_range in H by done. fault_tac.
    by apply cache_write_fault in H.
Qed.
(** ** What the cache routines do *)

Ltac fields :=
  cbn [branch_count code data data_cache dictionary cache_hits
       current_ref_count registers state with_state set_branch_count set_code
       set_data set_data_cache set_dictionary set_cache_hits
       set_current_ref_count set_registers PC MDR MAR IR0 IR1 ALU_x ALU_y
       ALU_z set_PC set_MDR set_MAR set_IR set_ALU_x set_ALU_y set_ALU_z
       valid dirty ref_count tag set_valid set_dirty set_ref_count set_tag
       fst snd] in *.

Ltac ok_step :=
  match goal with
  | H : Undefined _ = Ok _ |- _ => discriminate H
  | H : Ok _ = Ok _ |- _ => injection H as H; try subst
  | H : _ ≫= _ = Ok _ |- _ =>
      let a := fresh "a" in let Ha := fresh "Ha" in
      apply bind_Ok in H; destruct H as (a & Ha & H)
  | H : array_get _ _ _ = Ok _ |- _ => apply array_get_Ok in H
  | H : array_put _ _ _ _ = Ok _ |- _ =>
      let Hlt := fresh "Hlt" in
      apply array_put_Ok in H; destruct H as [Hlt H]; try subst
  end.

Ltac ok_tac := repeat ok_step.

Lemma write_block_Ok b m m' :
  write_block b m = Ok m' →
  ∃ e, dictionary m !! b = Some e ∧
    ((valid e = false ∧ m' = m) ∨
     (valid e = true ∧ dirty e = false ∧
      m' = set_dictionary (<[b := released e]> (dictionary m)) m) ∨
     (valid e = true ∧ dirty e = true ∧
      ∃ payload, data_cache m !! b = Some payload ∧
        (Z.to_nat (tag e) < length (data m))%nat ∧
        m' = set_dictionary (<[b := released e]> (dictionary m))
               (set_data (<[Z.to_nat (tag e) := payload]> (data m)) m))).
Proof.
  unfold write_block, dict_get, dict_put, cache_get, data_put.
  intros H. ok_tac. exists a. split; [done|].
  destruct (valid a) eqn:Hv; [|ok_tac; auto].
  destruct (dirty a) eqn:Hd; ok_tac; fields.
  - right; right. eauto 10.
  - right; left. eauto.
Qed.

Lemma lru_scan_bound d i LRU b :
  (b < i + length d)%nat → (lru_scan d i LRU b < i + length d)%nat.
Proof.
  revert i LRU b. induction d as [|e d IH]; intros i LRU b Hb; simpl in *.
  - lia.
  - destruct (valid e && (ref_count e <? LRU));
      (eapply Nat.lt_le_trans; [apply IH|]); simpl; lia.
Qed.

(* the loop invariant of removeLRU, read at the end of the loop *)
Lemma lru_scan_spec d i LRU b :
  let r := lru_scan d i LRU b in
  (r = b ∧ ∀ j e, d !! j = Some e → valid e = true → LRU ≤ ref_count e) ∨
  (∃ e, d !! (r - i)%nat = Some e ∧ (i ≤ r)%nat ∧ valid e = true ∧
        ref_count e < LRU ∧
        ∀ j e', d !! j = Some e' → valid e' = true →
                ref_count e ≤ ref_count e').
Proof.
  revert i LRU b. induction d as [|e d IH]; intros i LRU b; simpl.
  - left. split; [done|]. intros j e'. by rewrite lookup_nil.
  - destruct (valid e) eqn:Hv; simpl.
    + destruct (Z.ltb_spec (ref_count e) LRU) as [Hlt|Hge].
      * right. destruct (IH (S i) (ref_count e) i) as [[Hr Hall]|(e1 & He1 & Hi & Hv1 & Hlt1 & Hall)].
        -- rewrite Hr. exists e. replace (i - i)%nat with 0%nat by lia.
           repeat split; try done.
           intros [|j] e' He' Hv'; simpl in He'.
           ++ by inversion He'.
           ++ eauto.
        -- exists e1. replace (lru_scan d (S i) (ref_count e) i - i)%nat
             with (S (lru_scan d (S i) (ref_count e) i - S i)) by lia.
           repeat split; try done; try lia.
           intros [|j] e' He' Hv'; simpl in He'.
           ++ inversion He'; subst. lia.
           ++ eauto.
      * destruct (IH (S i) LRU b) as [[Hr Hall]|(e1 & He1 & Hi & Hv1 & Hlt1 & Hall)].
        -- left. split; [done|].
           intros [|j] e' He' Hv'; simpl in He'.
           ++ inversion He'; subst. lia.
           ++ eauto.
        -- right. exists e1. replace (lru_scan d (S i) LRU b - i)%nat
             with (S (lru_scan d (S i) LRU b - S i)) by lia.
           repeat split; try done; try lia.
           intros [|j] e' He' Hv'; simpl in He'.
           ++ inversion He'; subst. lia.
           ++ eauto.
    + destruct (IH (S i) LRU b) as [[Hr Hall]|(e1 & He1 & Hi & Hv1 & Hlt1 & Hall)].
      * left. split; [done|].
        intros [|j] e' He' Hv'; simpl in He'.
        -- inversion He'; subst. congruence.
        -- eauto.
      * right. exists e1. replace (lru_scan d (S i) LRU b - i)%nat
          with (S (lru_scan d (S i) LRU b - S i)) by lia.
        repeat split; try done; try lia.
        intros [|j] e' He' Hv'; simpl in He'.
        -- inversion He'; subst. congruence.
        -- eauto.
Qed.

Lemma first_free_Some d i b :
  first_free d i = Some b →
  (i ≤ b)%nat ∧
  (∃ e, d !! (b - i)%nat = Some e ∧ valid e = false) ∧
  ∀ j e, (j < b - i)%nat → d !! j = Some e → valid e = true.
Proof.
  revert i. induction d as [|e d IH]; intros i; simpl; [done|].
  destruct (valid e) eqn:Hv.
  - intros H. destruct (IH _ H) as (Hi & (e1 & He1 & Hv1) & Hall).
    replace (b - i)%nat with (S (b - S i)) by lia.
    split; [lia|]. split; [eauto|].
    intros [|j] e' Hj He'; simpl in He'.
    + by inversion He'; subst.
    + apply (Hall j); [lia | done].
  - intros [= <-]. replace (i - i)%nat with 0%nat by lia.
    split; [lia|]. split; [eauto|]. intros j e' Hj. lia.
Qed.

Lemma first_free_None d i :
  first_free d i = None → ∀ j e, d !! j = Some e → valid e = true.
Proof.
  revert i. induction d as [|e d IH]; intros i; simpl.
  - intros _ j e. by rewrite lookup_nil.
  - destruct (valid e) eqn:Hv; [|done].
    intros H [|j] e' He'; simpl in He'.
    + by inversion He'; subst.
    + eauto.
Qed.

Lemma find_block_from_Some t d i b :
  find_block_from t d i = Some b →
  (i ≤ b)%nat ∧ ∃ e, d !! (b - i)%nat = Some e ∧ valid e = true ∧ tag e = t.
Proof.
  revert i. induction d as [|e d IH]; intros i; simpl; [done|].
  destruct (valid e && (tag e =? t)) eqn:Hc.
  - intros [= <-]. apply andb_prop in Hc as [Hv Ht]. apply Z.eqb_eq in Ht.
    replace (i - i)%nat with 0%nat by lia. eauto.
  - intros H. destruct (IH _ H) as (Hi & e1 & He1 & Hv1 & Ht1).
    replace (b - i)%nat with (S (b - S i)) by lia. split; [lia|]. eauto.
Qed.

Lemma find_block_from_None t d i :
  find_block_from t d i = None →
  ∀ j e, d !! j = Some e → valid e = true → tag e ≠ t.
Proof.
  revert i. induction d as [|e d IH]; intros i; simpl.
  - intros _ j e. by rewrite lookup_nil.
  - destruct (valid e && (tag e =? t)) eqn:Hc; [done|].
    intros H [|j] e' He' Hv'; simpl in He'.
    + inversion He'; subst. rewrite Hv' in Hc. simpl in Hc.
      by apply Z.eqb_neq in Hc.
    + eauto.
Qed.
(** ** The cache invariant *)

Lemma write_block_frame b m m' :
  write_block b m = Ok m' →
  same_processor m m' ∧ current_ref_count m' = current_ref_count m ∧
  cache_hits m' = cache_hits m ∧ data_cache m' = data_cache m ∧
  length (data m') = length (data m) ∧
  length (dictionary m') = length (dictionary m).
Proof.
  intros H. apply write_block_Ok in H as (e & He & [[_ ->]|[(_ & _ & ->)|(_ & _ & p & _ & _ & ->)]]);
    unfold same_processor; fields; rewrite ?length_insert; done.
Qed.

(* the entries that are valid after write_block were there before, and the
   written block is not among them *)
Lemma write_block_valid b m m' i e :
  write_block b m = Ok m' →
  dictionary m' !! i = Some e → valid e = true →
  dictionary m !! i = Some e ∧ i ≠ b.
Proof.
  intros H Hi Hv.
  apply write_block_Ok in H as (e0 & He0 & [[Hv0 ->]|[(_ & _ & ->)|(_ & _ & p & _ & _ & ->)]]);
    fields.
  - split; [done|]. intros ->. congruence.
  - apply list_lookup_insert_Some in Hi as [(-> & <- & _)|[? ?]]; [done|auto].
  - apply list_lookup_insert_Some in Hi as [(-> & <- & _)|[? ?]]; [done|auto].
Qed.

Lemma write_block_released b m m' :
  write_block b m = Ok m' →
  ∃ e, dictionary m' !! b = Some e ∧ valid e = false.
Proof.
  intros H.
  apply write_block_Ok in H as (e0 & He0 & [[Hv0 ->]|[(_ & _ & ->)|(_ & _ & p & _ & _ & ->)]]);
    fields; [eauto| |];
    (exists (released e0); split; [|done];
     apply list_lookup_insert_eq; by eapply lookup_lt_Some).
Qed.

Lemma write_block_stamps_distinct skip b m m' :
  write_block b m = Ok m' →
  stamps_distinct_except skip m → stamps_distinct_except skip m'.
Proof.
  intros H Hd i j e e' Hi Hj Hv Hv' Hsi Hsj Heq.
  destruct (write_block_valid _ _ _ _ _ H Hi Hv) as [Hi0 _].
  destruct (write_block_valid _ _ _ _ _ H Hj Hv') as [Hj0 _].
  eauto.
Qed.

Lemma write_block_stamps_below skip b m m' :
  write_block b m = Ok m' →
  stamps_below_except skip m → stamps_below_except skip m'.
Proof.
  intros H Hd i e Hi Hv Hsi.
  destruct (write_block_valid _ _ _ _ _ H Hi Hv) as [Hi0 _].
  destruct (write_block_frame _ _ _ H) as (_ & -> & _). eauto.
Qed.

Lemma write_block_coherent b m m' :
  write_block b m = Ok m' → coherent m → coherent m'.
Proof.
  intros H (Hn & Hu & Hc). split; [|split].
  - intros i e Hi Hv.
    destruct (write_block_valid _ _ _ _ _ H Hi Hv) as [Hi0 _]. eauto.
  - intros i j e e' Hi Hj Hv Hv' Ht.
    destruct (write_block_valid _ _ _ _ _ H Hi Hv) as [Hi0 _].
    destruct (write_block_valid _ _ _ _ _ H Hj Hv') as [Hj0 _]. eauto.
  - intros i e Hi Hv Hd.
    destruct (write_block_valid _ _ _ _ _ H Hi Hv) as [Hi0 Hib].
    destruct (Hc i e Hi0 Hv Hd) as (blk & Hblk & Hdata).
    exists blk.
    apply write_block_Ok in H as (e0 & He0 & [[Hv0 ->]|[(_ & _ & ->)|(Hv0 & _ & p & _ & _ & ->)]]);
      fields; try done.
    split; [done|].
    rewrite list_lookup_insert_ne; [done|].
    intros Heq. apply Hib. symmetry. apply (Hu b i e0 e He0 Hi0 Hv0 Hv).
    pose proof (Hn _ _ He0 Hv0). pose proof (Hn _ _ Hi0 Hv). lia.
Qed.

(* the machine after the block [t], found in memory as [blk], has been put
   in the entry [b] *)
Lemma fetch_block_Ok t m b m' :
  fetch_block t m = Ok (b, m') →
  ∃ m1 e0 blk,
    ((first_free (dictionary m) 0 = Some b ∧ m1 = m) ∨
     (first_free (dictionary m) 0 = None ∧
      b = lru_scan (dictionary m) 0 0xFFFFFFFF 0 ∧
      write_block b m = Ok m1)) ∧
    dictionary m1 !! b = Some e0 ∧ valid e0 = false ∧
    data m1 !! Z.to_nat t = Some blk ∧
    (b < length (data_cache m1))%nat ∧
    m' = set_dictionary (<[b := filled t e0]> (dictionary m1))
           (set_data_cache (<[b := blk]> (data_cache m1)) m1).
Proof.
  unfold fetch_block, removeLRU, data_get, cache_put, dict_get, dict_put.
  intros H. ok_tac. destruct a as [b0 m1]. ok_tac. fields.
  exists m1, a1, a. 
  assert (Hstep :
    (first_free (dictionary m) 0 = Some b ∧ m1 = m) ∨
    (first_free (dictionary m) 0 = None ∧
      b = lru_scan (dictionary m) 0 0xFFFFFFFF 0 ∧
      write_block b m = Ok m1)).
  { destruct (first_free (dictionary m) 0) eqn:Hff; ok_tac; [left|right]; auto. }
  split; [done|].
  assert (Hinv : valid a1 = false).
  { destruct Hstep as [[Hff ->]|(Hff & -> & Hwb)].
    - apply first_free_Some in Hff as (_ & (e & He & Hv) & _).
      rewrite Nat.sub_0_r in He. congruence.
    - apply write_block_released in Hwb as (e & He & Hv). congruence. }
  repeat split; try done.
Qed.

Lemma fill_coherent t b e0 blk m :
  coherent m → dictionary m !! b = Some e0 → 0 ≤ t →
  (∀ j e, dictionary m !! j = Some e → valid e = true → tag e ≠ t) →
  data m !! Z.to_nat t = Some blk → (b < length (data_cache m))%nat →
  coherent (set_dictionary (<[b := filled t e0]> (dictionary m))
              (set_data_cache (<[b := blk]> (data_cache m)) m)).
Proof.
  intros (Hn & Hu & Hc) Hb Ht Hfree Hblk Hlen.
  split; [|split]; unfold tags_nonneg, tags_unique, clean_entries_match; fields.
  - intros i e Hi Hv.
    apply list_lookup_insert_Some in Hi as [(-> & <- & _)|[? ?]]; [done|eauto].
  - intros i j e e' Hi Hj Hv Hv' Heq.
    apply list_lookup_insert_Some in Hi as [(-> & <- & _)|[? Hi]];
      apply list_lookup_insert_Some in Hj as [(-> & <- & _)|[? Hj]];
      fields; try done.
    + by destruct (Hfree _ _ Hj Hv').
    + by destruct (Hfree _ _ Hi Hv).
    + eauto.
  - intros i e Hi Hv Hd.
    apply list_lookup_insert_Some in Hi as [(-> & <- & _)|[? Hi]]; fields.
    + exists blk. by rewrite list_lookup_insert_eq.
    + rewrite list_lookup_insert_ne by done. eauto.
Qed.

Lemma fill_stamps_distinct t b e0 blk m :
  stamps_distinct_except None m →
  stamps_distinct_except (Some b)
    (set_dictionary (<[b := filled t e0]> (dictionary m))
       (set_data_cache (<[b := blk]> (data_cache m)) m)).
Proof.
  intros Hd i j e e' Hi Hj Hv Hv' Hsi Hsj Heq. fields.
  rewrite list_lookup_insert_ne in Hi by congruence.
  rewrite list_lookup_insert_ne in Hj by congruence.
  apply (Hd i j e e'); done.
Qed.

Lemma fill_stamps_below t b e0 blk m :
  stamps_below_except None m →
  stamps_below_except (Some b)
    (set_dictionary (<[b := filled t e0]> (dictionary m))
       (set_data_cache (<[b := blk]> (data_cache m)) m)).
Proof.
  intros Hd i e Hi Hv Hsi. fields.
  rewrite list_lookup_insert_ne in Hi by congruence.
  apply (Hd i e); done.
Qed.

(* what fetch_block establishes when the block is not in the cache *)
Lemma fetch_block_invariant t m b m' :
  fetch_block t m = Ok (b, m') → cache_ok m → 0 ≤ t →
  (∀ j e, dictionary m !! j = Some e → valid e = true → tag e ≠ t) →
  coherent m' ∧ stamps_distinct_except (Some b) m' ∧
  stamps_below_except (Some b) m' ∧
  (∃ e, dictionary m' !! b = Some e ∧ valid e = true ∧ tag e = t) ∧
  same_processor m m' ∧ current_ref_count m' = current_ref_count m ∧
  cache_hits m' = cache_hits m.
Proof.
  intros H (Hco & Hsd & Hsb) Ht Hfree.
  apply fetch_block_Ok in H
    as (m1 & e0 & blk & Hstep & He0 & Hv0 & Hblk & Hlen & ->).
  assert (Hm1 : coherent m1 ∧ stamps_distinct_except None m1 ∧
                stamps_below_except None m1 ∧
                (∀ j e, dictionary m1 !! j = Some e → valid e = true →
                        tag e ≠ t) ∧
                same_processor m m1 ∧
                current_ref_count m1 = current_ref_count m ∧
                cache_hits m1 = cache_hits m).
  { destruct Hstep as [[_ ->]|(_ & _ & Hwb)]; [done|].
    pose proof (write_block_frame _ _ _ Hwb) as (? & ? & ? & _).
    split; [by eapply write_block_coherent|].
    split; [by apply (write_block_stamps_distinct None _ _ _ Hwb)|].
    split; [by apply (write_block_stamps_below None _ _ _ Hwb)|].
    split; [|done].
    intros j e Hj Hv.
    destruct (write_block_valid _ _ _ _ _ Hwb Hj Hv) as [Hj0 _]. eauto. }
  destruct Hm1 as (Hco1 & Hsd1 & Hsb1 & Hfree1 & Hsame & Hc & Hh).
  split; [by eapply fill_coherent|].
  split; [by apply fill_stamps_distinct|].
  split; [by apply fill_stamps_below|].
  fields. split.
  - exists (filled t e0). split; [|done].
    apply list_lookup_insert_eq. by eapply lookup_lt_Some.
  - done.
Qed.

Lemma stamps_distinct_weaken skip m :
  stamps_distinct_except None m → stamps_distinct_except skip m.
Proof. intros H i j e e' Hi Hj Hv Hv' _ _. by apply (H i j e e'). Qed.

Lemma stamps_below_weaken skip m :
  stamps_below_except None m → stamps_below_except skip m.
Proof. intros H i e Hi Hv _. by apply (H i e). Qed.

(* an access to the entry [b] keeps the cache coherent: the other entries are
   left alone, and [b] keeps its block and either keeps its payload or
   becomes dirty *)
Lemma coherent_access b m m' :
  coherent m → data m' = data m →
  (∀ i, i ≠ b → dictionary m' !! i = dictionary m !! i ∧
                data_cache m' !! i = data_cache m !! i) →
  (∀ e', dictionary m' !! b = Some e' →
     ∃ e, dictionary m !! b = Some e ∧ valid e' = valid e ∧ tag e' = tag e ∧
          (dirty e' = true ∨
           (dirty e' = dirty e ∧ data_cache m' !! b = data_cache m !! b))) →
  coherent m'.
Proof.
  intros (Hn & Hu & Hc) Hdata Hother Hb.
  assert (Hback : ∀ i e', dictionary m' !! i = Some e' → valid e' = true →
            ∃ e, dictionary m !! i = Some e ∧ valid e = true ∧ tag e = tag e').
  { intros i e' Hi Hv. destruct (decide (i = b)) as [->|Hne].
    - destruct (Hb _ Hi) as (e & He & Hve & Hte & _). exists e.
      split; [done|]. split; congruence.
    - destruct (Hother i Hne) as [Hd _]. rewrite Hd in Hi. eauto. }
  split; [|split].
  - intros i e' Hi Hv. destruct (Hback _ _ Hi Hv) as (e & He & Hve & <-). eauto.
  - intros i j e1 e2 Hi Hj Hv1 Hv2 Ht.
    destruct (Hback _ _ Hi Hv1) as (e1' & He1 & Hve1 & Ht1).
    destruct (Hback _ _ Hj Hv2) as (e2' & He2 & Hve2 & Ht2).
    apply (Hu i j e1' e2'); try done. congruence.
  - intros i e' Hi Hv Hd. rewrite Hdata.
    destruct (decide (i = b)) as [->|Hne].
    + destruct (Hb _ Hi) as (e & He & Hve & Hte & [Hdirty|[Hde Hpay]]);
        [congruence|].
      rewrite Hpay, Hte. apply (Hc b e); congruence.
    + destruct (Hother i Hne) as [Hdi Hca]. rewrite Hdi in Hi. rewrite Hca.
      eauto.
Qed.

(* stamping the entry [b] with the next stamp *)
Lemma stamps_access b m m' :
  stamps_distinct_except (Some b) m → stamps_below_except (Some b) m →
  current_ref_count m' = current_ref_count m + 1 →
  (∀ i, i ≠ b → dictionary m' !! i = dictionary m !! i) →
  (∀ e', dictionary m' !! b = Some e' → ref_count e' = current_ref_count m) →
  stamps_distinct_except None m' ∧ stamps_below_except None m'.
Proof.
  intros Hd Hbel Hc Hother Hb. split.
  - intros i j e e' Hi Hj Hv Hv' _ _ Heq.
    destruct (decide (i = b)) as [->|Hi'];
      destruct (decide (j = b)) as [->|Hj']; try done.
    + rewrite Hother in Hj by done. apply Hb in Hi.
      assert (ref_count e' < current_ref_count m)
        by (apply (Hbel j e'); [done|done|congruence]).
      lia.
    + rewrite Hother in Hi by done. apply Hb in Hj.
      assert (ref_count e < current_ref_count m)
        by (apply (Hbel i e); [done|done|congruence]).
      lia.
    + rewrite Hother in Hi, Hj by done.
      apply (Hd i j e e'); try done; congruence.
  - intros i e Hi Hv _. rewrite Hc.
    destruct (decide (i = b)) as [->|Hi'].
    + apply Hb in Hi. lia.
    + rewrite Hother in Hi by done.
      assert (ref_count e < current_ref_count m)
        by (apply (Hbel i e); [done|done|congruence]).
      lia.
Qed.

Lemma stamp_Ok b m m' :
  stamp b m = Ok m' →
  ∃ e, dictionary m !! b = Some e ∧
    m' = set_current_ref_count (to_ulong (current_ref_count m + 1))
           (set_dictionary
              (<[b := set_ref_count (current_ref_count m) e]> (dictionary m)) m).
Proof.
  unfold stamp, dict_get, dict_put. intros H. ok_tac. eauto.
Qed.

Lemma addr2tag_u16 BS addr :
  0 < BS → u16 addr → u16 (addr2tag BS addr).
Proof.
  unfold u16, addr2tag. intros HBS Haddr.
  rewrite Z.quot_div_nonneg by lia.
  split; [apply Z.div_pos; lia|].
  assert (addr / BS ≤ addr); [|lia].
  apply Z.div_le_upper_bound; nia.
Qed.

Lemma to_u16_id z : u16 z → to_u16 z = z.
Proof. unfold u16, to_u16. intros H. by apply Z.mod_small. Qed.

Lemma to_u16_u16 z : u16 (to_u16 z).
Proof. unfold u16, to_u16. apply Z.mod_pos_bound. lia. Qed.

Lemma locate_block_invariant BS m b m1 :
  0 < BS → u16 (MAR (state m)) → cache_ok m →
  locate_block BS m = Ok (b, m1) →
  coherent m1 ∧ stamps_distinct_except (Some b) m1 ∧
  stamps_below_except (Some b) m1 ∧
  (∃ e, dictionary m1 !! b = Some e ∧ valid e = true ∧
        tag e = addr2tag BS (MAR (state m))) ∧
  same_processor m m1 ∧ current_ref_count m1 = current_ref_count m.
Proof.
  intros HBS HMAR Hok. unfold locate_block, find_block.
  pose proof (addr2tag_u16 BS _ HBS HMAR) as Htag.
  destruct (find_block_from _ _ _) as [b0|] eqn:Hfind.
  - intros [= <- <-].
    apply find_block_from_Some in Hfind as (_ & e & He & Hv & Ht).
    rewrite Nat.sub_0_r in He.
    destruct Hok as (Hco & Hsd & Hsb).
    split; [exact Hco|].
    split; [by apply stamps_distinct_weaken|].
    split; [by apply stamps_below_weaken|].
    split; [by exists e|done].
  - rewrite to_u16_id by done. intros H.
    pose proof (find_block_from_None _ _ _ Hfind) as Hfree.
    destruct (fetch_block_invariant _ _ _ _ H Hok ltac:(unfold u16 in Htag; lia) Hfree)
      as (? & ? & ? & ? & ? & ? & ?).
    done.
Qed.

Lemma to_ulong_succ c : 0 ≤ c → c + 1 < 2 ^ 64 → to_ulong (c + 1) = c + 1.
Proof. intros. unfold to_ulong. apply Z.mod_small. lia. Qed.

Lemma cache_read_Ok BS m p m' :
  cache_read BS m = Ok (p, m') →
  (DATA_SIZE BS * BS * 2 ≤ MAR (state m) ∧ p = ILLEGAL_ADDRESS ∧ m' = m) ∨
  (MAR (state m) < DATA_SIZE BS * BS * 2 ∧ p = WRITE_BACK ∧
   ∃ b m1 blk hi lo e,
     locate_block BS m = Ok (b, m1) ∧
     data_cache m1 !! b = Some blk ∧
     blk !! Z.to_nat (to_u16 (addr2offset BS (MAR (state m)))) = Some (hi, lo) ∧
     dictionary m1 !! b = Some e ∧
     m' = set_current_ref_count (to_ulong (current_ref_count m1 + 1))
            (set_dictionary
               (<[b := set_ref_count (current_ref_count m1) e]> (dictionary m1))
               (with_state
                  (set_MDR (to_u16 (Z.lor (to_u16 (Z.shiftl hi 8)) lo))) m1))).
Proof.
  unfold cache_read. destruct (Z.ltb_spec (MAR (state m)) (DATA_SIZE BS * BS * 2)).
  - intros H'. right. split; [done|].
    unfold cache_get_word, cache_get in H'. ok_tac.
    destruct a as [b m1]. ok_tac. destruct a as [hi lo]. ok_tac.
    match goal with
    | Hs : stamp _ _ = Ok _ |- _ => apply stamp_Ok in Hs as (e & He & ->)
    end. fields.
    split; [done|]. exists b, m1. eauto 10.
  - intros [= <- <-]. left. done.
Qed.

Lemma cache_write_Ok BS m p m' :
  cache_write BS m = Ok (p, m') →
  (DATA_SIZE BS * BS * 2 ≤ MAR (state m) ∧ p = ILLEGAL_ADDRESS ∧ m' = m) ∨
  (MAR (state m) < DATA_SIZE BS * BS * 2 ∧ p = FETCH_INSTR ∧
   ∃ b m1 blk e,
     locate_block BS m = Ok (b, m1) ∧
     data_cache m1 !! b = Some blk ∧
     (Z.to_nat (to_u16 (addr2offset BS (MAR (state m)))) < length blk)%nat ∧
     dictionary m1 !! b = Some e ∧
     m' = set_dictionary
            (<[b := set_dirty true (set_ref_count (current_ref_count m1) e)]>
               (dictionary m1))
            (set_current_ref_count (to_ulong (current_ref_count m1 + 1))
               (set_data_cache
                  (<[b := <[Z.to_nat (to_u16 (addr2offset BS (MAR (state m)))) :=
                             (to_u8 (Z.shiftr (MDR (state m1)) 8),
                              to_u8 (Z.land (MDR (state m1)) 0x00ff))]> blk]>
                     (data_cache m1)) m1))).
Proof.
  unfold cache_write. destruct (Z.ltb_spec (MAR (state m)) (DATA_SIZE BS * BS * 2)).
  - intros H'. right. split; [done|].
    unfold cache_put_word, cache_get, cache_put, dict_get, dict_put in H'.
    ok_tac. destruct a as [b m1]. ok_tac.
    match goal with
    | Hs : stamp _ _ = Ok _ |- _ => apply stamp_Ok in Hs as (e & He & ->)
    end. fields.
    match goal with
    | Hd : <[b := _]> _ !! b = Some _ |- _ =>
        rewrite list_lookup_insert_eq in Hd by (by eapply lookup_lt_Some);
        injection Hd as <-
    end.
    rewrite list_insert_insert_eq.
    split; [done|]. exists b, m1. eauto 10.
  - intros [= <- <-]. left. done.
Qed.

Lemma cache_read_invariant BS m p m' :
  0 < BS → u16 (MAR (state m)) → cache_ok m →
  0 ≤ current_ref_count m → current_ref_count m + 1 < 2 ^ 64 →
  cache_read BS m = Ok (p, m') →
  cache_ok m' ∧ branch_count m' = branch_count m ∧ code m' = code m ∧
  registers m' = registers m ∧
  ((p = ILLEGAL_ADDRESS ∧ m' = m) ∨
   (p = WRITE_BACK ∧ current_ref_count m' = current_ref_count m + 1 ∧
    ∃ v, u16 v ∧ state m' = set_MDR v (state m))).
Proof.
  intros HBS HMAR Hok Hc0 Hc1 H.
  apply cache_read_Ok in H
    as [(_ & -> & ->)|(_ & -> & b & m1 & blk & hi & lo & e & Hloc & Hblk & Hw & He & ->)];
    [by auto 10|].
  destruct (locate_block_invariant _ _ _ _ HBS HMAR Hok Hloc)
    as (Hco & Hsd & Hsb & _ & (Hbc & Hcode & Hregs & Hst) & Hc).
  assert (Hb : (b < length (dictionary m1))%nat) by (by eapply lookup_lt_Some).
  fields. rewrite Hc, (to_ulong_succ _ Hc0 Hc1).
  split; [|split; [done|split; [done|split; [done|]]]].
  - split.
    + apply (coherent_access b m1); [done|done| |]; fields.
      * intros i Hi. by rewrite list_lookup_insert_ne.
      * rewrite list_lookup_insert_eq by done. intros e' [= <-].
        exists e. fields. repeat split; auto.
    + apply (stamps_access b m1); try done; fields; [lia| |].
      * intros i Hi. by rewrite list_lookup_insert_ne.
      * rewrite list_lookup_insert_eq by done. intros e' [= <-]. by fields.
  - right. split; [done|]. split; [done|]. eexists. split; [apply to_u16_u16|].
    by rewrite Hst.
Qed.

Lemma cache_write_invariant BS m p m' :
  0 < BS → u16 (MAR (state m)) → cache_ok m →
  0 ≤ current_ref_count m → current_ref_count m + 1 < 2 ^ 64 →
  cache_write BS m = Ok (p, m') →
  cache_ok m' ∧ same_processor m m' ∧
  ((p = ILLEGAL_ADDRESS ∧ m' = m) ∨
   (p = FETCH_INSTR ∧ current_ref_count m' = current_ref_count m + 1)).
Proof.
  intros HBS HMAR Hok Hc0 Hc1 H.
  apply cache_write_Ok in H
    as [(_ & -> & ->)|(_ & -> & b & m1 & blk & e & Hloc & Hblk & Hoff & He & ->)];
    [split; [done|split; [by unfold same_processor|auto]]|].
  destruct (locate_block_invariant _ _ _ _ HBS HMAR Hok Hloc)
    as (Hco & Hsd & Hsb & _ & Hsame & Hc).
  assert (Hb : (b < length (dictionary m1))%nat) by (by eapply lookup_lt_Some).
  unfold same_processor in *. fields. rewrite Hc, (to_ulong_succ _ Hc0 Hc1).
  split; [|split; [done|right; done]].
  split.
  - apply (coherent_access b m1); [done|done| |]; fields.
    + intros i Hi. by rewrite !list_lookup_insert_ne.
    + rewrite list_lookup_insert_eq by done. intros e' [= <-].
      exists e. fields. repeat split; auto.
  - apply (stamps_access b m1); try done; fields; [lia| |].
    + intros i Hi. by rewrite list_lookup_insert_ne.
    + rewrite list_lookup_insert_eq by done. intros e' [= <-]. by fields.
Qed.

(** ** The invariant of the simulator *)

(* the latches other than IR do not take part in decoding *)
Lemma opcode_set_PC v s : opcode (set_PC v s) = opcode s.
Proof. reflexivity. Qed.
Lemma opcode_set_MDR v s : opcode (set_MDR v s) = opcode s.
Proof. reflexivity. Qed.
Lemma opcode_set_MAR v s : opcode (set_MAR v s) = opcode s.
Proof. reflexivity. Qed.
Lemma opcode_set_ALU_x v s : opcode (set_ALU_x v s) = opcode s.
Proof. reflexivity. Qed.
Lemma opcode_set_ALU_y v s : opcode (set_ALU_y v s) = opcode s.
Proof. reflexivity. Qed.
Lemma opcode_set_ALU_z v s : opcode (set_ALU_z v s) = opcode s.
Proof. reflexivity. Qed.
Lemma mode_set_PC v s : mode (set_PC v s) = mode s.
Proof. reflexivity. Qed.
Lemma mode_set_MDR v s : mode (set_MDR v s) = mode s.
Proof. reflexivity. Qed.
Lemma mode_set_MAR v s : mode (set_MAR v s) = mode s.
Proof. reflexivity. Qed.
Lemma mode_set_ALU_x v s : mode (set_ALU_x v s) = mode s.
Proof. reflexivity. Qed.
Lemma mode_set_ALU_y v s : mode (set_ALU_y v s) = mode s.
Proof. reflexivity. Qed.
Lemma mode_set_ALU_z v s : mode (set_ALU_z v s) = mode s.
Proof. reflexivity. Qed.

Create Rewrite HintDb decoding.

#[global] Hint Rewrite opcode_set_PC opcode_set_MDR opcode_set_MAR
  opcode_set_ALU_x opcode_set_ALU_y opcode_set_ALU_z mode_set_PC mode_set_MDR
  mode_set_MAR mode_set_ALU_x mode_set_ALU_y mode_set_ALU_z : decoding.

Lemma read_reg_u16 reg m v :
  registers_ok m → read_reg reg m = Ok v → u16 v.
Proof.
  intros [_ Hall] H. apply array_get_Ok in H.
  by eapply (Forall_lookup_1 _ _ _ _ Hall).
Qed.

Lemma write_reg_ok reg v m m' :
  registers_ok m → u16 v → write_reg reg v m = Ok m' →
  m' = set_registers (<[Z.to_nat reg := v]> (registers m)) m ∧
  registers_ok m'.
Proof.
  intros [Hlen Hall] Hv H. unfold write_reg in H. ok_tac.
  split; [done|]. split; fields.
  - by rewrite length_insert.
  - by apply Forall_insert.
Qed.

(* every reachable counter of cache accesses is far below the wrap-around of
   [unsigned long] and below the initial minimum of removeLRU *)
Lemma access_budget_bound p m :
  access_budget p m → 0 ≤ branch_count m → latches_ok (state m) →
  current_ref_count m ≤ 1024068609.
Proof.
  intros Hbud Hbc (HPC & _ & _ & _ & HZ).
  pose proof (to_u16_u16 (ALU_z (state m) + 1)) as Hz.
  unfold access_budget, accesses, u16, CODE_SIZE, BRANCH_LIMIT in *.
  destruct p; try lia;
    destruct Hbud as (? & ? & Hbud); destruct (opcode (state m)); try lia;
    destruct (Z.land (mode (state m)) 4 =? 0); lia.
Qed.

Lemma sim_inv_counter p m :
  sim_inv p m →
  0 ≤ current_ref_count m ∧ current_ref_count m + 1 < 2 ^ 64 ∧
  current_ref_count m < 0xFFFFFFFF.
Proof.
  intros (_ & Hlat & _ & Hbc & Hc & Hbud).
  pose proof (access_budget_bound p m Hbud Hbc Hlat). lia.
Qed.

Ltac sim_inv_split :=
  unfold sim_inv; split; [|split; [|split; [|split; [|split]]]].

Ltac budget :=
  unfold access_budget, accesses, latches_ok, u16, CODE_SIZE, BRANCH_LIMIT in *;
  fields; cbv iota; try lia.

Lemma fetch_instr_inv m p' m' :
  sim_inv FETCH_INSTR m → fetch_instr m = Ok (p', m') → sim_inv p' m'.
Proof.
  intros (Hregs & Hlat & Hcache & Hbc & Hc & Hbud) H.
  unfold fetch_instr in H.
  destruct (Z.ltb_spec (PC (state m)) CODE_SIZE) as [HPC|HPC].
  - ok_tac. destruct a as [b0 b1]. ok_tac.
    destruct Hlat as (? & ? & ? & ? & ?).
    sim_inv_split; try done.
    + unfold latches_ok. fields. auto using to_u16_u16.
    + budget.
  - ok_tac. sim_inv_split; try done. budget.
Qed.

Lemma decode_instr_inv m p' m' :
  sim_inv DECODE_INSTR m → decode_instr m = Ok (p', m') → sim_inv p' m'.
Proof.
  intros (Hregs & Hlat & Hcache & Hbc & Hc & Hbud) H.
  unfold decode_instr in H.
  destruct (opcode (state m)) eqn:Hop;
    repeat match type of H with
           | (if ?c then _ else _) = _ => destruct c
           end; ok_tac; sim_inv_split; try done; budget.
Qed.

Lemma calculate_ea_inv m p' m' :
  sim_inv CALCULATE_EA m → calculate_ea m = Ok (p', m') → sim_inv p' m'.
Proof.
  intros (Hregs & Hlat & Hcache & Hbc & Hc & Hbud) H.
  unfold calculate_ea in H. cbv zeta in H.
  destruct (_ =? 0xFF) in H; ok_tac.
  - sim_inv_split; try done.
  - match goal with
    | Hr : read_reg _ _ = Ok _ |- _ => apply read_reg_u16 in Hr; [|done]
    end.
    destruct Hlat as (? & ? & ? & ? & ?).
    sim_inv_split; try done; unfold latches_ok; fields; auto.
Qed.


Ltac split_mode4 :=
  repeat match goal with
         | |- context [Z.land (mode ?s) 4 =? 0] =>
             destruct (Z.land (mode s) 4 =? 0)
         end.

(* closes the six parts of [sim_inv] after a step that changes latches only;
   [tac] rewrites with what is known of the opcode and the mode *)
Ltac close_inv tac :=
  sim_inv_split; try done;
  first
    [ solve [unfold latches_ok in *; fields;
             repeat match goal with |- _ ∧ _ => split end;
             first [assumption | apply to_u16_u16 | tauto]]
    | solve [unfold access_budget in *; fields;
             autorewrite with decoding in *; tac; budget] ].

Lemma fetch_operands_inv BS m p' m' :
  0 < BS →
  sim_inv FETCH_OPERANDS m → fetch_operands BS m = Ok (p', m') →
  sim_inv p' m'.
Proof.
  intros HBS Hinv H. unfold fetch_operands in H.
  apply bind_Ok in H as (m1 & Hm1 & H).
  assert (Hinv1 : sim_inv FETCH_OPERANDS m1).
  { destruct (decide (opcode (state m) = MOVE_OPCODE)); ok_tac; [done|].
    destruct Hinv as (Hregs & (? & ? & ? & ? & ?) & Hcache & Hbc & Hc & Hbud).
    match goal with
    | Hr : read_reg _ _ = Ok _ |- _ => apply read_reg_u16 in Hr; [|done]
    end.
    close_inv idtac. }
  clear Hm1 Hinv. rename Hinv1 into Hinv. cbv zeta in H.
  pose proof (sim_inv_counter _ _ Hinv) as (Hc0 & Hc1 & _).
  destruct Hinv as (Hregs & Hlat & Hcache & Hbc & Hc & Hbud).
  pose proof Hlat as (? & ? & ? & ? & ?).
  destruct (opcode (state m1)) eqn:Hop.
  1-5: destruct (mode (state m1) =? 0); ok_tac; close_inv ltac:(rewrite ?Hop).
  2-4: ok_tac; close_inv ltac:(rewrite ?Hop).
  (* MOVE *)
  destruct (Z.land (mode (state m1)) 1 =? 0) eqn:E1.
  { ok_tac.
    close_inv ltac:(rewrite ?Hop; destruct (Z.land (mode (state m1)) 4 =? 0)). }
  destruct (Z.land (mode (state m1)) 4 =? 0) eqn:E4; simpl negb in H; cbv iota in H.
  - destruct (cache_read_invariant _ _ _ _ HBS ltac:(done) Hcache Hc0 Hc1 H)
      as (Hcache' & Hbc' & Hcode' & Hregs' & [[-> ->]|(-> & Hc' & v & Hv & Hst)]).
    + close_inv idtac.
    + sim_inv_split; try done.
      * unfold registers_ok. by rewrite Hregs'.
      * rewrite Hst. unfold latches_ok. fields. auto.
      * lia.
      * lia.
      * unfold access_budget in *. rewrite Hst, Hbc'. fields.
        autorewrite with decoding. rewrite Hop, E4.
        unfold accesses in *. budget.
  - ok_tac.
    match goal with
    | Hr : read_reg _ _ = Ok _ |- _ => apply read_reg_u16 in Hr; [|done]
    end.
    close_inv ltac:(rewrite ?Hop, ?E4).
Qed.

Lemma count_branch_inv m p' m' :
  sim_inv EXECUTE_INSTR m → opcode (state m) = BRANCH_OPCODE →
  count_branch m = Ok (p', m') → sim_inv p' m'.
Proof.
  intros (Hregs & Hlat & Hcache & Hbc & Hc & Hbud) Hop H.
  unfold count_branch in H.
  destruct (branch_count m <? INT_MAX); [|done].
  pose proof (to_u16_u16 (ALU_z (state m) + 1)) as Hz.
  fields.
  destruct (Z.ltb_spec BRANCH_LIMIT (branch_count m + 1)); ok_tac;
    (sim_inv_split; try done;
     [fields; lia
     |unfold access_budget in *; fields; rewrite ?Hop; budget]).
Qed.

Lemma execute_instr_inv m p' m' :
  sim_inv EXECUTE_INSTR m → execute_instr m = Ok (p', m') → sim_inv p' m'.
Proof.
  intros Hinv H. unfold execute_instr in H. cbv zeta in H.
  pose proof Hinv as (Hregs & Hlat & Hcache & Hbc & Hc & Hbud).
  pose proof Hlat as (? & ? & ? & ? & ?).
  destruct (opcode (state m)) eqn:Hop.
  1-5: ok_tac; close_inv ltac:(rewrite ?Hop).
  1,4: ok_tac; close_inv ltac:(rewrite ?Hop; cbv iota; split_mode4).
  - destruct (mode (state m) =? 0); ok_tac; close_inv ltac:(rewrite ?Hop).
  - assert (Hjump : ∀ v, u16 v →
              sim_inv EXECUTE_INSTR (with_state (set_ALU_z v) m)).
    { intros v Hv. close_inv idtac. }
    destruct (mode (state m) =? 0).
    + exact (count_branch_inv _ _ _ (Hjump _ H3) Hop H).
    + apply bind_Ok in H as ([] & _ & H).
      * exact (count_branch_inv _ _ _ (Hjump _ (to_u16_u16 _)) Hop H).
      * ok_tac. sim_inv_split; try done.
        unfold access_budget in *. fields. autorewrite with decoding.
        rewrite Hop. unfold to_u16. rewrite Z.mod_small; budget.
Qed.

Ltac mid_split := split; [|split; [|split; [|split; [|split; [|split]]]]].

Lemma write_back_inv BS m p' m' :
  0 < BS →
  sim_inv WRITE_BACK m → write_back BS m = Ok (p', m') → sim_inv p' m'.
Proof.
  intros HBS Hinv H. unfold write_back in H. cbv zeta in H.
  pose proof (sim_inv_counter _ _ Hinv) as (Hc0 & Hc1 & _).
  destruct Hinv as (Hregs & Hlat & Hcache & Hbc & Hc & Hbud).
  pose proof Hlat as (HPC & HMDR & HMAR & HX & HZ).
  apply bind_Ok in H as ([rc m1] & Hm1 & H). injection H as <- <-.
  assert (Hmid :
    registers_ok m1 ∧ latches_ok (state m1) ∧ cache_ok m1 ∧
    branch_count m1 = branch_count m ∧ 1 ≤ current_ref_count m1 ∧
    (rc = FETCH_INSTR ∨ rc = ILLEGAL_ADDRESS) ∧
    accesses m1 ≤ CODE_SIZE * branch_count m + to_u16 (PC (state m1) + 1)).
  { unfold access_budget in Hbud. destruct Hbud as (Hlim & HPC' & Hbud).
    assert (Hnext : to_u16 (PC (state m) + 1) = PC (state m) + 1).
    { apply to_u16_id. unfold u16, CODE_SIZE in *. lia. }
    destruct (opcode (state m)) eqn:Hop.
    1-5,7: apply bind_Ok in Hm1 as (m2 & Hw & Hm1); ok_tac;
      apply write_reg_ok in Hw as [-> Hregs']; try done;
      fields; rewrite Hnext; unfold accesses in *; fields; mid_split;
      first [done | lia | auto].
    - destruct (Z.land (mode (state m)) 4 =? 0) eqn:E4; simpl negb in Hm1;
        cbv iota in Hm1.
      + apply bind_Ok in Hm1 as (m2 & Hw & Hm1); ok_tac;
        apply write_reg_ok in Hw as [-> Hregs']; try done;
        fields; rewrite Hnext; unfold accesses in *; fields; mid_split;
        first [done | lia | auto].
      + destruct (cache_write_invariant _ _ _ _ HBS HMAR Hcache Hc0 Hc1 Hm1)
          as (Hcache' & (Hb' & Hcode' & Hregs' & Hst') &
              [[-> ->]|[-> Hc']]).
        * rewrite Hnext. unfold accesses in *. mid_split;
            first [done | lia | auto].
        * rewrite Hst', Hnext. unfold registers_ok, accesses in *.
          rewrite Hregs', Hc'. mid_split; first [done | lia | auto].
    - ok_tac. fields. unfold accesses in *. fields. mid_split;
        first [done | lia | auto].
    - ok_tac. rewrite Hnext. unfold accesses in *. mid_split;
        first [done | lia | auto]. }
  destruct Hmid as (Hregs1 & (? & ? & ? & ? & ?) & Hcache1 & Hbc1 & Hc1' & Hrc & Hacc).
  sim_inv_split; try done.
  - unfold latches_ok. fields.
    repeat match goal with |- _ ∧ _ => split end;
      first [assumption | apply to_u16_u16].
  - fields. lia.
  - unfold access_budget. fields. rewrite Hbc1.
    unfold access_budget in Hbud. destruct Hbud as (Hlim & _).
    unfold accesses in *. fields.
    destruct Hrc as [-> | ->]; lia.
Qed.

Lemma control_unit_inv BS p m p' m' :
  0 < BS → running p = true →
  sim_inv p m → control_unit BS p m = Ok (p', m') → sim_inv p' m'.
Proof.
  intros HBS Hrun Hinv H. destruct p; try discriminate Hrun; simpl in H.
  - by eapply fetch_instr_inv.
  - by eapply decode_instr_inv.
  - by eapply calculate_ea_inv.
  - by eapply fetch_operands_inv.
  - by eapply execute_instr_inv.
  - by eapply write_back_inv.
Qed.

Lemma run_inv BS fuel p m p' m' :
  0 < BS → sim_inv p m → run BS fuel p m = Ok (p', m') → sim_inv p' m'.
Proof.
  intros HBS. revert p m. induction fuel as [|fuel IH]; intros p m Hinv H.
  - simpl in H. by ok_tac.
  - destruct (running p) eqn:Hrun.
    + rewrite run_step in H by done.
      apply bind_Ok in H as ([p1 m1] & Hstep & H).
      eapply IH; [|exact H]. by eapply control_unit_inv.
    + rewrite run_stopped in H by done. by ok_tac.
Qed.

(** ** Reachable machines *)

Lemma boot_inv CB BS bytes words : sim_inv FETCH_INSTR (boot CB BS bytes words).
Proof.
  assert (Hempty : ∀ i e,
    dictionary (boot CB BS bytes words) !! i = Some e → valid e = false).
  { intros i e H. unfold boot, load_data, load_code, initialize_system in H.
    fields. apply lookup_replicate_1 in H as [-> _]. done. }
  sim_inv_split.
  - unfold boot, load_data, load_code, initialize_system, registers_ok. fields.
    split; [by rewrite length_replicate|].
    apply Forall_replicate. unfold u16. lia.
  - unfold boot, load_data, load_code, initialize_system, latches_ok, u16.
    fields. lia.
  - repeat split; intros i; intros;
      repeat match goal with
             | He : dictionary _ !! _ = Some ?e, Hv : valid ?e = true |- _ =>
                 apply Hempty in He; congruence
             end.
  - unfold boot, load_data, load_code, initialize_system. fields. lia.
  - unfold boot, load_data, load_code, initialize_system. fields. lia.
  - unfold boot, load_data, load_code, initialize_system, access_budget,
      accesses, BRANCH_LIMIT, CODE_SIZE. fields. lia.
Qed.

(* every machine a run reaches satisfies the invariant *)
Lemma reachable_inv CB BS bytes words fuel p m :
  0 < BS → run BS fuel FETCH_INSTR (boot CB BS bytes words) = Ok (p, m) →
  sim_inv p m.
Proof. intros HBS. apply run_inv; [done | apply boot_inv]. Qed.

Lemma flush_from_cache_ok i count m m' :
  flush_from i count m = Ok m' → cache_ok m →
  cache_ok m' ∧ same_processor m m' ∧
  current_ref_count m' = current_ref_count m.
Proof.
  revert i m. induction count as [|count IH]; intros i m H Hok; simpl in H.
  - ok_tac. by unfold same_processor.
  - apply bind_Ok in H as (m1 & Hwb & H).
    destruct Hok as (Hco & Hsd & Hsb).
    pose proof (write_block_frame _ _ _ Hwb) as ((? & ? & ? & ?) & ? & _).
    destruct (IH _ _ H) as (Hok' & (? & ? & ? & ?) & ?).
    { split; [by eapply write_block_coherent|]. split.
      - by apply (write_block_stamps_distinct None _ _ _ Hwb).
      - by apply (write_block_stamps_below None _ _ _ Hwb). }
    split; [done|]. unfold same_processor. repeat split; congruence.
Qed.

(** ** Entries become dirty by cache_write only *)

Lemma no_new_dirty_refl m : no_new_dirty m m.
Proof. intros i e Hi Hv Hd. eauto. Qed.

Lemma no_new_dirty_trans m1 m2 m3 :
  no_new_dirty m1 m2 → no_new_dirty m2 m3 → no_new_dirty m1 m3.
Proof.
  intros H12 H23 i e3 Hi Hv Hd.
  destruct (H23 _ _ Hi Hv Hd) as (e2 & Hi2 & Hv2 & Hd2 & Ht2).
  destruct (H12 _ _ Hi2 Hv2 Hd2) as (e1 & Hi1 & Hv1 & Hd1 & Ht1).
  exists e1. repeat split; try done. congruence.
Qed.

Lemma write_block_no_new_dirty b m m' :
  write_block b m = Ok m' → no_new_dirty m m'.
Proof.
  intros H i e Hi Hv Hd.
  destruct (write_block_valid _ _ _ _ _ H Hi Hv) as [Hi0 _]. eauto.
Qed.

Lemma fetch_block_no_new_dirty t m b m' :
  fetch_block t m = Ok (b, m') → no_new_dirty m m'.
Proof.
  intros H.
  apply fetch_block_Ok in H
    as (m1 & e0 & blk & Hstep & He0 & Hv0 & Hblk & Hlen & ->).
  apply (no_new_dirty_trans _ m1).
  - destruct Hstep as [[_ ->]|(_ & _ & Hwb)];
      [apply no_new_dirty_refl | by eapply write_block_no_new_dirty].
  - intros i e Hi Hv Hd. fields.
    apply list_lookup_insert_Some in Hi as [(-> & <- & _)|[? Hi]];
      [done|eauto].
Qed.

Lemma locate_block_no_new_dirty BS m b m' :
  locate_block BS m = Ok (b, m') → no_new_dirty m m'.
Proof.
  unfold locate_block. destruct (find_block _ _).
  - intros [= <- <-]. intros i e Hi Hv Hd. fields. eauto.
  - apply fetch_block_no_new_dirty.
Qed.

Lemma cache_read_no_new_dirty BS m p m' :
  cache_read BS m = Ok (p, m') → no_new_dirty m m'.
Proof.
  intros H.
  apply cache_read_Ok in H
    as [(_ & -> & ->)|(_ & -> & b & m1 & blk & hi & lo & e & Hloc & Hblk & Hw & He & ->)];
    [apply no_new_dirty_refl|].
  apply (no_new_dirty_trans _ m1); [by eapply locate_block_no_new_dirty|].
  intros i e' Hi Hv Hd. fields.
  apply list_lookup_insert_Some in Hi as [(-> & <- & _)|[? Hi]]; eauto.
Qed.

Lemma flush_from_no_new_dirty i count m m' :
  flush_from i count m = Ok m' → no_new_dirty m m'.
Proof.
  revert i m. induction count as [|count IH]; intros i m H; simpl in H.
  - ok_tac. apply no_new_dirty_refl.
  - apply bind_Ok in H as (m1 & Hwb & H).
    eapply no_new_dirty_trans; [by eapply write_block_no_new_dirty|eauto].
Qed.

(** ** What an access leaves in the dictionary *)

Lemma cache_read_stamp BS m m' :
  0 < BS → u16 (MAR (state m)) → cache_ok m →
  cache_read BS m = Ok (WRITE_BACK, m') →
  ∃ b e, dictionary m' !! b = Some e ∧ valid e = true ∧
         tag e = addr2tag BS (MAR (state m)) ∧
         ref_count e = current_ref_count m ∧
         current_ref_count m' = to_ulong (current_ref_count m + 1).
Proof.
  intros HBS HMAR Hok H.
  apply cache_read_Ok in H
    as [(_ & [=] & _)|(_ & _ & b & m1 & blk & hi & lo & e & Hloc & Hblk & Hw & He & ->)].
  destruct (locate_block_invariant _ _ _ _ HBS HMAR Hok Hloc)
    as (_ & _ & _ & (e1 & He1 & Hv1 & Ht1) & _ & Hc).
  assert (e1 = e) as -> by congruence.
  exists b, (set_ref_count (current_ref_count m1) e). fields.
  rewrite list_lookup_insert_eq by (by eapply lookup_lt_Some).
  rewrite Hc. done.
Qed.

Lemma cache_write_stamp BS m m' :
  0 < BS → u16 (MAR (state m)) → cache_ok m →
  cache_write BS m = Ok (FETCH_INSTR, m') →
  ∃ b e, dictionary m' !! b = Some e ∧ valid e = true ∧ dirty e = true ∧
         tag e = addr2tag BS (MAR (state m)) ∧
         ref_count e = current_ref_count m ∧
         current_ref_count m' = to_ulong (current_ref_count m + 1).
Proof.
  intros HBS HMAR Hok H.
  apply cache_write_Ok in H
    as [(_ & [=] & _)|(_ & _ & b & m1 & blk & e & Hloc & Hblk & Hoff & He & ->)].
  destruct (locate_block_invariant _ _ _ _ HBS HMAR Hok Hloc)
    as (_ & _ & _ & (e1 & He1 & Hv1 & Ht1) & _ & Hc).
  assert (e1 = e) as -> by congruence.
  exists b, (set_dirty true (set_ref_count (current_ref_count m1) e)). fields.
  rewrite list_lookup_insert_eq by (by eapply lookup_lt_Some).
  rewrite Hc. done.
Qed.

(** ** The stamps of the valid entries *)

Lemma cache_ok_stamps m :
  cache_ok m → stamps_distinct m ∧ stamps_below m.
Proof.
  intros (_ & Hd & Hb). split.
  - intros i j e e' Hi Hj Hv Hv' Heq. by apply (Hd i j e e').
  - intros i e Hi Hv. by apply (Hb i e).
Qed.

(** C9.  In every machine a run of the simulator reaches from the loaded
    initial state, that is after every completed cache operation, the stamps
    [ref_count] of the valid entries are pairwise distinct and below
    [current_ref_count], and the final flush keeps it so.  An access, hit or
    miss, leaves its entry stamped with the old [current_ref_count] and
    increments the counter; write_block clears the stamp of the entry it
    releases. *)
Theorem stamps_distinct_and_below
  (CB BS : Z) (bytes : list Z) (words : list Word)
  (fuel : nat) (p : Phase) (m : Machine) :
  0 < BS →
  run BS fuel FETCH_INSTR (boot CB BS bytes words) = Ok (p, m) →
  (stamps_distinct m ∧ stamps_below m) ∧
  (∀ m', flush CB m = Ok m' → stamps_distinct m' ∧ stamps_below m') ∧
  (∀ m', cache_read BS m = Ok (WRITE_BACK, m') →
     current_ref_count m' = current_ref_count m + 1 ∧
     ∃ b e, dictionary m' !! b = Some e ∧ valid e = true ∧
            tag e = addr2tag BS (MAR (state m)) ∧
            ref_count e = current_ref_count m) ∧
  (∀ m', cache_write BS m = Ok (FETCH_INSTR, m') →
     current_ref_count m' = current_ref_count m + 1 ∧
     ∃ b e, dictionary m' !! b = Some e ∧ valid e = true ∧
            tag e = addr2tag BS (MAR (state m)) ∧
            ref_count e = current_ref_count m) ∧
  (∀ b e m', write_block b m = Ok m' → dictionary m !! b = Some e →
     valid e = true →
     ∃ e', dictionary m' !! b = Some e' ∧ valid e' = false ∧
           ref_count e' = 0).
Proof.
  intros HBS Hrun.
  pose proof (reachable_inv _ _ _ _ _ _ _ HBS Hrun) as Hinv.
  pose proof (sim_inv_counter _ _ Hinv) as (Hc0 & Hc1 & _).
  destruct Hinv as (_ & (_ & _ & HMAR & _) & Hok & _).
  split; [by apply cache_ok_stamps|].
  split; [|split; [|split]].
  - intros m' Hflush. apply cache_ok_stamps.
    by destruct (flush_from_cache_ok _ _ _ _ Hflush Hok).
  - intros m' H.
    destruct (cache_read_stamp _ _ _ HBS HMAR Hok H)
      as (b & e & He & Hv & Ht & Hr & Hc).
    rewrite to_ulong_succ in Hc by done. eauto 10.
  - intros m' H.
    destruct (cache_write_stamp _ _ _ HBS HMAR Hok H)
      as (b & e & He & Hv & _ & Ht & Hr & Hc).
    rewrite to_ulong_succ in Hc by done. eauto 10.
  - intros b e m' H He Hv.
    apply write_block_Ok in H
      as (e0 & He0 & [[Hv0 _]|[(_ & _ & ->)|(_ & _ & pl & _ & _ & ->)]]);
      [congruence| |];
      (exists (released e0); fields; split; [|done];
       apply list_lookup_insert_eq; by eapply lookup_lt_Some).
Qed.

(** ** Sequences of cache operations *)

Lemma fetch_block_coherent t m b m' :
  fetch_block t m = Ok (b, m') → coherent m → 0 ≤ t →
  (∀ j e, dictionary m !! j = Some e → valid e = true → tag e ≠ t) →
  coherent m'.
Proof.
  intros H Hco Ht Hfree.
  apply fetch_block_Ok in H
    as (m1 & e0 & blk & Hstep & He0 & Hv0 & Hblk & Hlen & ->).
  assert (Hm1 : coherent m1 ∧
                ∀ j e, dictionary m1 !! j = Some e → valid e = true →
                       tag e ≠ t).
  { destruct Hstep as [[_ ->]|(_ & _ & Hwb)]; [done|].
    split; [by eapply write_block_coherent|].
    intros j e Hj Hv.
    destruct (write_block_valid _ _ _ _ _ Hwb Hj Hv) as [Hj0 _]. eauto. }
  destruct Hm1 as [Hco1 Hfree1]. by eapply fill_coherent.
Qed.

Lemma locate_block_coherent BS m b m' :
  0 < BS → u16 (MAR (state m)) → coherent m →
  locate_block BS m = Ok (b, m') → coherent m'.
Proof.
  intros HBS HMAR Hco. unfold locate_block, find_block.
  pose proof (addr2tag_u16 BS _ HBS HMAR) as Htag.
  destruct (find_block_from _ _ _) as [b0|] eqn:Hfind.
  - intros [= <- <-]. exact Hco.
  - rewrite to_u16_id by done. intros H.
    eapply fetch_block_coherent; [exact H|done|unfold u16 in Htag; lia|].
    by eapply find_block_from_None.
Qed.

Lemma cache_read_coherent BS m p m' :
  0 < BS → u16 (MAR (state m)) → coherent m →
  cache_read BS m = Ok (p, m') → coherent m'.
Proof.
  intros HBS HMAR Hco H.
  apply cache_read_Ok in H
    as [(_ & -> & ->)|(_ & -> & b & m1 & blk & hi & lo & e & Hloc & Hblk & Hw & He & ->)];
    [done|].
  pose proof (locate_block_coherent _ _ _ _ HBS HMAR Hco Hloc) as Hco1.
  assert (Hb : (b < length (dictionary m1))%nat) by (by eapply lookup_lt_Some).
  apply (coherent_access b m1); [done|done| |]; fields.
  - intros i Hi. by rewrite list_lookup_insert_ne.
  - rewrite list_lookup_insert_eq by done. intros e' [= <-].
    exists e. fields. repeat split; auto.
Qed.

Lemma cache_write_coherent BS m p m' :
  0 < BS → u16 (MAR (state m)) → coherent m →
  cache_write BS m = Ok (p, m') → coherent m'.
Proof.
  intros HBS HMAR Hco H.
  apply cache_write_Ok in H
    as [(_ & -> & ->)|(_ & -> & b & m1 & blk & e & Hloc & Hblk & Hoff & He & ->)];
    [done|].
  pose proof (locate_block_coherent _ _ _ _ HBS HMAR Hco Hloc) as Hco1.
  assert (Hb : (b < length (dictionary m1))%nat) by (by eapply lookup_lt_Some).
  apply (coherent_access b m1); [done|done| |]; fields.
  - intros i Hi. by rewrite !list_lookup_insert_ne.
  - rewrite list_lookup_insert_eq by done. intros e' [= <-].
    exists e. fields. repeat split; auto.
Qed.

Lemma flush_from_coherent i count m m' :
  flush_from i count m = Ok m' → coherent m → coherent m'.
Proof.
  revert i m. induction count as [|count IH]; intros i m H Hco; simpl in H.
  - by ok_tac.
  - apply bind_Ok in H as (m1 & Hwb & H).
    eapply IH; [exact H|]. by eapply write_block_coherent.
Qed.

Lemma cache_op_coherent CB BS op m m' :
  0 < BS → coherent m → cache_op CB BS op m = Ok m' → coherent m'.
Proof.
  intros HBS Hco H. destruct op; simpl in H.
  - apply bind_Ok in H as ([p m1] & H & [= <-]).
    eapply cache_read_coherent in H; [done|done|apply to_u16_u16|exact Hco].
  - apply bind_Ok in H as ([p m1] & H & [= <-]).
    eapply cache_write_coherent in H; [done|done|apply to_u16_u16|exact Hco].
  - apply bind_Ok in H as ([p m1] & H & [= <-]).
    eapply locate_block_coherent in H; [done|done|apply to_u16_u16|exact Hco].
  - apply bind_Ok in H as ([p m1] & H & [= <-]).
    unfold removeLRU in H. apply bind_Ok in H as (m2 & H & [= _ <-]).
    by eapply write_block_coherent.
  - by eapply write_block_coherent.
  - by eapply flush_from_coherent.
Qed.

Lemma cache_ops_coherent CB BS ops m m' :
  0 < BS → coherent m → cache_ops CB BS ops m = Ok m' → coherent m'.
Proof.
  intros HBS. revert m. induction ops as [|op ops IH]; intros m Hco H;
    simpl in H.
  - by ok_tac.
  - apply bind_Ok in H as (m1 & Hop & H).
    eapply IH; [|exact H]. by eapply cache_op_coherent.
Qed.

Lemma locate_block_entry BS m b m1 :
  0 < BS → u16 (MAR (state m)) → locate_block BS m = Ok (b, m1) →
  ∃ e, dictionary m1 !! b = Some e ∧ valid e = true ∧
       tag e = addr2tag BS (MAR (state m)).
Proof.
  intros HBS HMAR. unfold locate_block, find_block.
  pose proof (addr2tag_u16 BS _ HBS HMAR) as Htag.
  destruct (find_block_from _ _ _) as [b0|] eqn:Hfind.
  - intros [= <- <-].
    apply find_block_from_Some in Hfind as (_ & e & He & Hv & Ht).
    rewrite Nat.sub_0_r in He. by exists e.
  - rewrite to_u16_id by done. intros H.
    apply fetch_block_Ok in H
      as (m2 & e0 & blk & _ & He0 & _ & _ & _ & ->).
    exists (filled (addr2tag BS (MAR (state m))) e0). fields.
    split; [|done]. apply list_lookup_insert_eq. by eapply lookup_lt_Some.
Qed.

Lemma cache_write_dirties BS m m' :
  0 < BS → u16 (MAR (state m)) →
  cache_write BS m = Ok (FETCH_INSTR, m') →
  ∃ b e, dictionary m' !! b = Some e ∧ valid e = true ∧ dirty e = true ∧
         tag e = addr2tag BS (MAR (state m)).
Proof.
  intros HBS HMAR H.
  apply cache_write_Ok in H
    as [(_ & [=] & _)|(_ & _ & b & m1 & blk & e & Hloc & Hblk & Hoff & He & ->)].
  destruct (locate_block_entry _ _ _ _ HBS HMAR Hloc) as (e1 & He1 & Hv1 & Ht1).
  assert (e1 = e) as -> by congruence.
  exists b, (set_dirty true (set_ref_count (current_ref_count m1) e)). fields.
  rewrite list_lookup_insert_eq by (by eapply lookup_lt_Some). done.
Qed.

(** C6.  Start from any machine a run of the simulator reaches from the
    loaded initial state (the initial state itself included) and perform any
    sequence of cache operations: reads, writes, fills of absent blocks,
    evictions, write-backs and flushes.  In the machine reached every valid
    entry that is not dirty holds exactly the words of the memory block of its
    tag.  There fetch_block leaves the filled entry valid and not dirty with
    the words of its block; cache_read, fetch_block, write_block and the flush
    mark no entry dirty; cache_write leaves the entry it wrote dirty. *)
Theorem clean_entries_match_memory
  (CB BS : Z) (bytes : list Z) (words : list Word)
  (fuel : nat) (p : Phase) (m0 : Machine) (ops : list CacheOp) (m : Machine) :
  0 < BS →
  run BS fuel FETCH_INSTR (boot CB BS bytes words) = Ok (p, m0) →
  cache_ops CB BS ops m0 = Ok m →
  clean_entries_match m ∧
  (∀ t b m', fetch_block t m = Ok (b, m') →
     no_new_dirty m m' ∧
     ∃ e blk, dictionary m' !! b = Some e ∧ valid e = true ∧
              dirty e = false ∧ tag e = t ∧
              data_cache m' !! b = Some blk ∧
              data m' !! Z.to_nat t = Some blk) ∧
  (∀ p' m', cache_read BS m = Ok (p', m') → no_new_dirty m m') ∧
  (∀ b m', write_block b m = Ok m' → no_new_dirty m m') ∧
  (∀ m', flush CB m = Ok m' → no_new_dirty m m') ∧
  (∀ addr value m',
     cache_write BS (with_state (set_MDR (to_u16 value))
                       (with_state (set_MAR (to_u16 addr)) m))
       = Ok (FETCH_INSTR, m') →
     ∃ b e, dictionary m' !! b = Some e ∧ valid e = true ∧ dirty e = true ∧
            tag e = addr2tag BS (to_u16 addr)).
Proof.
  intros HBS Hrun Hops.
  pose proof (reachable_inv _ _ _ _ _ _ _ HBS Hrun) as (_ & _ & (Hco0 & _) & _).
  pose proof (cache_ops_coherent _ _ _ _ _ HBS Hco0 Hops) as Hco.
  split; [apply Hco|].
  split; [|split; [|split; [|split]]].
  - intros t b m' H. split; [by eapply fetch_block_no_new_dirty|].
    apply fetch_block_Ok in H
      as (m1 & e0 & blk & _ & He0 & _ & Hblk & Hlen & ->).
    exists (filled t e0), blk. fields.
    rewrite !list_lookup_insert_eq by (done || by eapply lookup_lt_Some).
    done.
  - intros p' m'. apply cache_read_no_new_dirty.
  - intros b m'. apply write_block_no_new_dirty.
  - intros m'. apply flush_from_no_new_dirty.
  - intros addr value m' H.
    apply cache_write_dirties in H; [done|done|apply to_u16_u16].
Qed.

(** ** Filling an entry *)

(* in a reachable machine the scan of removeLRU finds the least recently used
   entry as soon as some entry is valid *)
Lemma lru_scan_least p m b e :
  sim_inv p m → dictionary m !! b = Some e → valid e = true →
  least_recently_used (dictionary m) (lru_scan (dictionary m) 0 0xFFFFFFFF 0).
Proof.
  intros Hinv He Hv.
  pose proof (sim_inv_counter _ _ Hinv) as (_ & _ & Hsmall).
  destruct Hinv as (_ & _ & (_ & _ & Hbelow) & _).
  destruct (lru_scan_spec (dictionary m) 0 0xFFFFFFFF 0)
    as [[_ Hall]|(e1 & He1 & _ & Hv1 & _ & Hmin)].
  - pose proof (Hall _ _ He Hv).
    assert (ref_count e < current_ref_count m) by (by apply (Hbelow b e)).
    lia.
  - rewrite Nat.sub_0_r in He1. by exists e1.
Qed.

(** C4.  In every machine a run of the simulator reaches, fetch_block takes
    the first entry that is not valid when there is one and leaves memory
    alone; when every entry is valid it takes the entry removeLRU releases,
    which is a valid entry with the smallest stamp, and memory receives the
    payload of that entry exactly when the entry is dirty.  Afterwards the
    chosen entry is valid and not dirty, carries the requested tag and holds
    the words of data[tag]; its stamp is the one it had (0 after a release)
    and [current_ref_count] is unchanged; the other entries are untouched. *)
Theorem fetch_block_selects_and_fills
  (CB BS : Z) (bytes : list Z) (words : list Word)
  (fuel : nat) (p : Phase) (m : Machine) (t : Z) (b : nat) (m' : Machine) :
  0 < BS →
  run BS fuel FETCH_INSTR (boot CB BS bytes words) = Ok (p, m) →
  fetch_block t m = Ok (b, m') →
  ∃ e0 blk,
    dictionary m !! b = Some e0 ∧
    (if valid e0
     then (∀ j e, dictionary m !! j = Some e → valid e = true) ∧
          least_recently_used (dictionary m) b ∧
          (∃ m1, removeLRU m = Ok (b, m1) ∧
                 dictionary m1 !! b = Some (released e0) ∧
                 data m' = data m1) ∧
          (if dirty e0
           then ∃ payload, data_cache m !! b = Some payload ∧
                  data m' = <[Z.to_nat (tag e0) := payload]> (data m)
           else data m' = data m)
     else (∀ j e, (j < b)%nat → dictionary m !! j = Some e → valid e = true) ∧
          data m' = data m) ∧
    dictionary m' =
      <[b := mkEntry true false (if valid e0 then 0 else ref_count e0) t]>
        (dictionary m) ∧
    data m' !! Z.to_nat t = Some blk ∧
    data_cache m' = <[b := blk]> (data_cache m) ∧
    current_ref_count m' = current_ref_count m.
Proof.
  intros HBS Hrun H.
  pose proof (reachable_inv _ _ _ _ _ _ _ HBS Hrun) as Hinv.
  apply fetch_block_Ok in H
    as (m1 & e1 & blk & Hstep & He1 & Hv1 & Hblk & Hlen & ->).
  destruct Hstep as [[Hff ->]|(Hff & Hb & Hwb)].
  - (* a free entry *)
    apply first_free_Some in Hff as (_ & (e & He & Hv) & Hall).
    rewrite Nat.sub_0_r in He, Hall.
    assert (e = e1) as -> by congruence.
    exists e1, blk. rewrite Hv1. fields. repeat split; done.
  - (* every entry is valid *)
    pose proof (first_free_None _ _ Hff) as Hall.
    assert (Hrm : removeLRU m = Ok (b, m1)).
    { unfold removeLRU. rewrite <- Hb, Hwb. done. }
    pose proof Hwb as Hwb'.
    apply write_block_Ok in Hwb'
      as (e0 & He0 & [[Hv0 _]|[(Hv0 & Hd0 & ->)|(Hv0 & Hd0 & pl & Hpl & Htag & ->)]]).
    + rewrite (Hall _ _ He0) in Hv0. done.
    + fields.
      rewrite list_lookup_insert_eq in He1 by (by eapply lookup_lt_Some).
      injection He1 as <-.
      exists e0, blk. rewrite Hv0, Hd0. fields.
      rewrite list_insert_insert_eq.
      split; [done|]. split; [|done].
      split; [done|]. split; [rewrite Hb; by eapply lru_scan_least|].
      split; [|done]. eexists. split; [exact Hrm|]. fields.
      split; [|done]. apply list_lookup_insert_eq. by eapply lookup_lt_Some.
    + fields.
      rewrite list_lookup_insert_eq in He1 by (by eapply lookup_lt_Some).
      injection He1 as <-.
      exists e0, blk. rewrite Hv0, Hd0. fields.
      rewrite list_insert_insert_eq.
      split; [done|]. split; [|done].
      split; [done|]. split; [rewrite Hb; by eapply lru_scan_least|].
      split; [|by exists pl]. eexists. split; [exact Hrm|]. fields.
      split; [|done]. apply list_lookup_insert_eq. by eapply lookup_lt_Some.
Qed.

(** ** The program counter *)

Lemma fetch_block_frame t m b m' :
  fetch_block t m = Ok (b, m') → same_processor m m'.
Proof.
  intros H.
  apply fetch_block_Ok in H as (m1 & e0 & blk & Hstep & _ & _ & _ & _ & ->).
  destruct Hstep as [[_ ->]|(_ & _ & Hwb)]; [done|].
  by destruct (write_block_frame _ _ _ Hwb) as [? _].
Qed.

Lemma locate_block_frame BS m b m' :
  locate_block BS m = Ok (b, m') → same_processor m m'.
Proof.
  unfold locate_block. destruct (find_block _ _).
  - by intros [= <- <-].
  - apply fetch_block_frame.
Qed.

(* cache_read changes no latch but MDR and no register *)
Lemma cache_read_frame BS m p m' :
  cache_read BS m = Ok (p, m') →
  registers m' = registers m ∧ branch_count m' = branch_count m ∧
  ∃ v, state m' = set_MDR v (state m).
Proof.
  intros H.
  apply cache_read_Ok in H
    as [(_ & -> & ->)|(_ & -> & b & m1 & blk & hi & lo & e & Hloc & _ & _ & _ & ->)].
  - repeat split. exists (MDR (state m)). by destruct (state m).
  - apply locate_block_frame in Hloc as (? & ? & ? & Hst). fields.
    rewrite Hst. eauto.
Qed.

Lemma cache_write_frame BS m p m' :
  cache_write BS m = Ok (p, m') → same_processor m m'.
Proof.
  intros H.
  apply cache_write_Ok in H
    as [(_ & -> & ->)|(_ & -> & b & m1 & blk & e & Hloc & _ & _ & _ & ->)];
    [done|].
  by apply locate_block_frame in Hloc.
Qed.

Lemma kept_trans m1 m2 m3 : kept m1 m2 → kept m2 m3 → kept m1 m3.
Proof. unfold kept. intros (? & ? & ? & ?) (? & ? & ? & ?). repeat split; congruence. Qed.

Lemma decode_instr_kept m p' m' : decode_instr m = Ok (p', m') → m' = m.
Proof.
  unfold decode_instr. intros H.
  destruct (opcode (state m));
    repeat match type of H with
           | (if ?c then _ else _) = _ => destruct c
           end; by ok_tac.
Qed.

Lemma calculate_ea_kept m p' m' :
  calculate_ea m = Ok (p', m') → p' = FETCH_OPERANDS ∧ kept m m'.
Proof.
  unfold calculate_ea. cbv zeta. intros H.
  destruct (_ =? 0xFF) in H; ok_tac; by unfold kept.
Qed.

Lemma fetch_operands_kept BS m p' m' :
  fetch_operands BS m = Ok (p', m') → kept m m'.
Proof.
  unfold fetch_operands. intros H.
  apply bind_Ok in H as (m1 & Hm1 & H).
  apply (kept_trans _ m1).
  { destruct (decide _); ok_tac; by unfold kept. }
  cbv zeta in H.
  destruct (opcode (state m1));
    repeat match type of H with
           | (if ?c then _ else _) = _ => destruct c
           end; ok_tac; try by unfold kept.
  apply cache_read_frame in H as (? & _ & v & Hst).
  unfold kept. rewrite Hst. by fields.
Qed.

Lemma fetch_instr_Ok m p' m' :
  fetch_instr m = Ok (p', m') →
  (CODE_SIZE ≤ PC (state m) ∧ p' = ILLEGAL_ADDRESS ∧ m' = m) ∨
  (PC (state m) < CODE_SIZE ∧ p' = DECODE_INSTR ∧
   PC (state m') = PC (state m) ∧ registers m' = registers m ∧
   ∃ b0 b1, code m !! Z.to_nat (PC (state m)) = Some (b0, b1) ∧
            IR0 (state m') =
              to_u8 (Z.shiftr (to_u16 (Z.lor (to_u16 (Z.shiftl b0 8)) b1)) 8) ∧
            IR1 (state m') =
              to_u8 (Z.land (to_u16 (Z.lor (to_u16 (Z.shiftl b0 8)) b1)) 0x00ff)).
Proof.
  unfold fetch_instr. intros H.
  destruct (Z.ltb_spec (PC (state m)) CODE_SIZE); ok_tac; [right|by left].
  destruct a as [b0 b1]. ok_tac. fields. eauto 10.
Qed.

(* the four phases an instruction goes through before WRITE_BACK *)
Lemma run_to_write_back BS m mw :
  run BS 4 FETCH_INSTR m = Ok (WRITE_BACK, mw) →
  ∃ m1, fetch_instr m = Ok (DECODE_INSTR, m1) ∧
    ((opcode (state m1) = MOVE_OPCODE ∧
      ∃ m2, calculate_ea m1 = Ok (FETCH_OPERANDS, m2) ∧
            fetch_operands BS m2 = Ok (WRITE_BACK, mw)) ∨
     (opcode (state m1) ≠ MOVE_OPCODE ∧
      decode_instr m1 = Ok (FETCH_OPERANDS, m1) ∧
      ∃ m3, fetch_operands BS m1 = Ok (EXECUTE_INSTR, m3) ∧
            execute_instr m3 = Ok (WRITE_BACK, mw))).
Proof.
  intros H. rewrite run_step in H by done. cbn [control_unit] in H.
  apply bind_Ok in H as ([p1 m1] & Hf & H).
  pose proof Hf as Hf'.
  apply fetch_instr_Ok in Hf' as [(_ & -> & ->)|(_ & -> & _)].
  { rewrite run_stopped in H by done. discriminate. }
  exists m1. split; [done|].
  rewrite run_step in H by done. cbn [control_unit] in H.
  apply bind_Ok in H as ([p2 m2] & Hd & H).
  pose proof (decode_instr_kept _ _ _ Hd) as ->.
  destruct (decide (opcode (state m1) = MOVE_OPCODE)) as [Hop|Hop].
  - left. split; [done|].
    rewrite decode_move in Hd by done.
    destruct (Z.land (mode (state m1)) 2 =? 0); injection Hd as <-;
      [|rewrite run_stopped in H by done; discriminate].
    rewrite run_step in H by done. cbn [control_unit] in H.
    apply bind_Ok in H as ([p3 m3] & Hea & H).
    destruct (calculate_ea_kept _ _ _ Hea) as [-> _].
    exists m3. split; [done|].
    rewrite run_step in H by done. cbn [control_unit] in H.
    apply bind_Ok in H as ([p4 m4] & Hfo & H).
    simpl in H. by injection H as -> ->.
  - right. split; [done|].
    assert (p2 = FETCH_OPERANDS ∨ p2 = ILLEGAL_OPCODE) as [-> | ->].
    { unfold decode_instr in Hd.
      destruct (opcode (state m1)); try done;
        repeat match type of Hd with
               | (if ?c then _ else _) = _ => destruct c
               end; injection Hd as <-; auto. }
    2: { rewrite run_stopped in H by done. discriminate. }
    split; [done|].
    rewrite run_step in H by done. cbn [control_unit] in H.
    apply bind_Ok in H as ([p3 m3] & Hfo & H).
    assert (p3 = EXECUTE_INSTR) as ->.
    { unfold fetch_operands in Hfo.
      apply bind_Ok in Hfo as (m1' & Hm1' & Hfo).
      assert (opcode (state m1') = opcode (state m1)) as Hop'.
      { destruct (decide _); ok_tac; done. }
      cbv zeta in Hfo. rewrite Hop' in Hfo.
      destruct (opcode (state m1)); try done;
        repeat match type of Hfo with
               | (if ?c then _ else _) = _ => destruct c
               end; ok_tac; done. }
    exists m3. split; [done|].
    rewrite run_step in H by done. cbn [control_unit] in H.
    apply bind_Ok in H as ([p4 m4] & Hex & H).
    simpl in H. by injection H as -> ->.
Qed.

Lemma opcode_IR0 s s' : IR0 s' = IR0 s → opcode s' = opcode s.
Proof. unfold opcode. by intros ->. Qed.

Lemma mode_IR0 s s' : IR0 s' = IR0 s → mode s' = mode s.
Proof. unfold mode. by intros ->. Qed.

Lemma get_reg1_IR s s' :
  IR0 s' = IR0 s → IR1 s' = IR1 s → get_reg1 s' = get_reg1 s.
Proof. unfold get_reg1. by intros -> ->. Qed.

Lemma extract_literal_IR s s' :
  IR1 s' = IR1 s → extract_literal s' = extract_literal s.
Proof. unfold extract_literal. by intros ->. Qed.

Lemma branch_taken_other md x m :
  ¬ (1 ≤ md ≤ 6) → branch_taken md x m = Ok false.
Proof.
  intros Hmd. unfold branch_taken.
  destruct md as [|p|p]; try reflexivity.
  do 3 (try (destruct p as [p|p|]; try reflexivity; try lia)).
Qed.

Lemma branch_taken_spec md x m r0 b :
  registers m !! 0%nat = Some r0 → branch_taken md x m = Ok b →
  b = true ↔ branch_condition md (to_s16 x) (to_s16 r0).
Proof.
  intros Hr0 H. unfold branch_condition.
  destruct (decide (1 ≤ md ≤ 6)) as [Hmd|Hmd].
  - unfold branch_taken, read_reg, array_get in H.
    change (Z.to_nat 0) with 0%nat in H. rewrite Hr0 in H.
    assert (md = 1 ∨ md = 2 ∨ md = 3 ∨ md = 4 ∨ md = 5 ∨ md = 6)
      as [->|[->|[->|[->|[->| ->]]]]] by lia;
      simpl in H; injection H as <-.
    + rewrite Z.eqb_eq. lia.
    + rewrite negb_true_iff, Z.eqb_neq. lia.
    + rewrite Z.ltb_lt. lia.
    + rewrite Z.gtb_gt. lia.
    + rewrite Z.leb_le. lia.
    + rewrite Z.geb_le. lia.
  - rewrite branch_taken_other in H by done. injection H as <-.
    split; [done|lia].
Qed.

Lemma count_branch_Ok m p' m' :
  count_branch m = Ok (p', m') → m' = set_branch_count (branch_count m + 1) m.
Proof.
  unfold count_branch. destruct (_ <? _); [|done]. by intros [= _ <-].
Qed.

Lemma execute_instr_kept m p' m' :
  execute_instr m = Ok (p', m') → kept m m'.
Proof.
  unfold execute_instr. cbv zeta. intros H.
  destruct (opcode (state m));
    repeat match type of H with
           | (if ?c then _ else _) = _ => destruct c
           end; ok_tac; try by unfold kept.
  - apply count_branch_Ok in H as ->. by unfold kept.
  - destruct a; [apply count_branch_Ok in H as ->|ok_tac]; by unfold kept.
Qed.

(* the latch ALU_z after EXECUTE_INSTR has run a BRANCH *)
Lemma execute_branch m p' m' :
  opcode (state m) = BRANCH_OPCODE → execute_instr m = Ok (p', m') →
  if mode (state m) =? 0 then ALU_z (state m') = ALU_x (state m)
  else ∀ r0, registers m !! 0%nat = Some r0 →
    (branch_condition (mode (state m)) (to_s16 (ALU_x (state m))) (to_s16 r0) →
     ALU_z (state m') =
       to_u16 (PC (state m) + ALU_y (state m) - 1)) ∧
    (¬ branch_condition (mode (state m)) (to_s16 (ALU_x (state m))) (to_s16 r0) →
     ALU_z (state m') = PC (state m)).
Proof.
  intros Hop H. unfold execute_instr in H. cbv zeta in H. rewrite Hop in H.
  destruct (mode (state m) =? 0).
  - by apply count_branch_Ok in H as ->.
  - intros r0 Hr0. apply bind_Ok in H as (b & Hb & H).
    apply (branch_taken_spec _ _ _ _ _ Hr0) in Hb.
    destruct b.
    + apply count_branch_Ok in H as ->. fields. split; [done|].
      intros Hn. destruct Hn. by apply Hb.
    + ok_tac. fields. split; [|done].
      intros Hc. apply Hb in Hc. done.
Qed.

Lemma fetch_operands_branch BS m p' m' :
  opcode (state m) = BRANCH_OPCODE → fetch_operands BS m = Ok (p', m') →
  ∃ r1, registers m !! Z.to_nat (get_reg1 (state m)) = Some r1 ∧
        ALU_x (state m') = r1 ∧
        ALU_y (state m') = to_u16 (extract_literal (state m)).
Proof.
  intros Hop H. unfold fetch_operands in H.
  rewrite decide_False in H by (rewrite Hop; done).
  apply bind_Ok in H as (m1 & Hm1 & H).
  apply bind_Ok in Hm1 as (r1 & Hr1 & Hm1). injection Hm1 as <-.
  apply array_get_Ok in Hr1.
  cbv zeta in H. fields. autorewrite with decoding in H.
  rewrite Hop in H. injection H as <- <-. fields. eauto.
Qed.

Lemma write_back_PC BS m p' m' :
  write_back BS m = Ok (p', m') →
  PC (state m') =
    to_u16 ((if decide (opcode (state m) = BRANCH_OPCODE)
             then ALU_z (state m) else PC (state m)) + 1).
Proof.
  unfold write_back. cbv zeta. intros H.
  apply bind_Ok in H as ([rc m1] & Hm1 & H). injection H as <- <-. fields.
  f_equal. f_equal.
  destruct (opcode (state m)) eqn:Hop;
    rewrite ?decide_True, ?decide_False by done;
    repeat match type of Hm1 with
           | (if ?c then _ else _) = _ => destruct c
           end;
    try (apply cache_write_frame in Hm1 as (_ & _ & _ & ->); done);
    unfold write_reg in Hm1; ok_tac; done.
Qed.

Lemma to_u16_branch_target pc lit :
  to_u16 (to_u16 (pc + to_u16 lit - 1) + 1) = to_u16 (pc + lit).
Proof. unfold to_u16. Z.div_mod_to_equations. lia. Qed.

(** C5.  Take an instruction that goes through its phases from FETCH_INSTR
    and is retired by WRITE_BACK.  The instruction is the word of code memory
    at PC.  After WRITE_BACK the program counter is PC + 1 when the
    instruction is not a BRANCH; for a jump (BRANCH with mode 0) it is
    R[r1] + 1 modulo 2^16; for a conditional branch it is PC + imm modulo 2^16
    when the condition on R[r1] and R[0] holds and PC + 1 when it does not. *)
Theorem pc_after_retired_instruction
  (BS : Z) (m mw : Machine) (rc : Phase) (m' : Machine) :
  u16 (PC (state m)) →
  run BS 4 FETCH_INSTR m = Ok (WRITE_BACK, mw) →
  write_back BS mw = Ok (rc, m') →
  let s := state mw in
  (∃ b0 b1, code m !! Z.to_nat (PC (state m)) = Some (b0, b1) ∧
            IR0 s = to_u8 (Z.shiftr (to_u16 (Z.lor (to_u16 (Z.shiftl b0 8)) b1)) 8) ∧
            IR1 s = to_u8 (Z.land (to_u16 (Z.lor (to_u16 (Z.shiftl b0 8)) b1)) 0x00ff)) ∧
  match opcode s with
  | BRANCH_OPCODE =>
      if mode s =? 0 then
        ∀ r1, registers m !! Z.to_nat (get_reg1 s) = Some r1 →
              PC (state m') = to_u16 (r1 + 1)
      else
        ∀ r1 r0, registers m !! Z.to_nat (get_reg1 s) = Some r1 →
                 registers m !! 0%nat = Some r0 →
          (branch_condition (mode s) (to_s16 r1) (to_s16 r0) →
           PC (state m') = to_u16 (PC (state m) + extract_literal s)) ∧
          (¬ branch_condition (mode s) (to_s16 r1) (to_s16 r0) →
           PC (state m') = PC (state m) + 1)
  | _ => PC (state m') = PC (state m) + 1
  end.
Proof.
  intros HPC Hrun Hwb s.
  apply run_to_write_back in Hrun as (m1 & Hf & Hrest).
  apply fetch_instr_Ok in Hf
    as [(_ & [=] & _)|(HPC' & _ & HPC1 & Hregs1 & b0 & b1 & Hcode & HIR0 & HIR1)].
  assert (Hnext : to_u16 (PC (state m) + 1) = PC (state m) + 1).
  { apply to_u16_id. unfold u16, CODE_SIZE in *. lia. }
  pose proof (write_back_PC _ _ _ _ Hwb) as HPCwb. fold s in HPCwb.
  destruct Hrest as [(Hop & m2 & Hea & Hfo)|(Hop & Hd & m3 & Hfo & Hex)].
  - (* MOVE *)
    apply calculate_ea_kept in Hea as [_ Hk12].
    apply fetch_operands_kept in Hfo as Hk2w.
    destruct (kept_trans _ _ _ Hk12 Hk2w) as (HPCw & HI0 & HI1 & Hregsw).
    split; [exists b0, b1; subst s; rewrite HI0, HI1; done|].
    rewrite (opcode_IR0 (state m1)) in * by done. rewrite Hop in *.
    rewrite decide_False in HPCwb by done.
    subst s. rewrite HPCwb, HPCw, HPC1. done.
  - (* the other instructions *)
    pose proof (fetch_operands_kept _ _ _ _ Hfo) as Hk13.
    pose proof (execute_instr_kept _ _ _ Hex) as Hk3w.
    pose proof (kept_trans _ _ _ Hk13 Hk3w) as (HPCw & HI0 & HI1 & Hregsw).
    destruct Hk13 as (HPC3 & HI03 & HI13 & Hregs3).
    split; [exists b0, b1; subst s; rewrite HI0, HI1; done|].
    assert (Hops : opcode s = opcode (state m1)) by (by apply opcode_IR0).
    assert (Hop3 : opcode (state m3) = opcode (state m1)) by (by apply opcode_IR0).
    assert (Hmode : mode s = mode (state m1)) by (by apply mode_IR0).
    assert (Hmode3 : mode (state m3) = mode (state m1)) by (by apply mode_IR0).
    assert (Hr1 : get_reg1 s = get_reg1 (state m1)) by (by apply get_reg1_IR).
    assert (Hlit : extract_literal s = extract_literal (state m1))
      by (by apply extract_literal_IR).
    rewrite Hops, Hmode, Hr1, Hlit in *.
    destruct (opcode (state m1)) eqn:Hop1; try done;
      try (rewrite decide_False in HPCwb by done;
           subst s; rewrite HPCwb, HPCw, HPC1; done).
    rewrite decide_True in HPCwb by done.
    destruct (fetch_operands_branch _ _ _ _ Hop1 Hfo) as (r1' & Hr1' & HX & HY).
    pose proof (execute_branch _ _ _ Hop3 Hex) as Hz.
    rewrite Hmode3 in Hz.
    destruct (mode (state m1) =? 0).
    + intros r1 Hr. subst s. rewrite HPCwb, Hz, HX.
      rewrite <- Hregs1 in Hr. congruence.
    + intros r1 r0 Hr Hr0. rewrite <- Hregs1 in Hr, Hr0.
      assert (r1' = r1) as -> by congruence.
      rewrite <- Hregs3 in Hr0.
      destruct (Hz r0 Hr0) as [Htaken Hnot]. rewrite HX in *.
      split; intros Hc; subst s; rewrite HPCwb.
      * rewrite (Htaken Hc), HY, HPC3, HPC1. apply to_u16_branch_target.
      * rewrite (Hnot Hc), HPC3, HPC1. done.
Qed.

(** ** The guard against infinite loops *)

Lemma run_add BS a b p m :
  run BS (a + b) p m = run BS a p m ≫= λ '(p', m'), run BS b p' m'.
Proof.
  revert p m. induction a as [|a IH]; intros p m; [done|].
  cbn [Nat.add]. destruct (running p) eqn:Hp.
  - rewrite !run_step by done.
    destruct (control_unit BS p m) as [[p1 m1]|f]; [|done].
    cbn [mbind Result_bind]. apply IH.
  - rewrite !run_stopped by done. cbn [mbind Result_bind].
    by rewrite run_stopped.
Qed.

Lemma fetch_instr_word m b0 b1 mdr i0 i1 :
  0 ≤ PC (state m) < CODE_SIZE →
  code m !! Z.to_nat (PC (state m)) = Some (b0, b1) →
  mdr = to_u16 (Z.lor (to_u16 (Z.shiftl b0 8)) b1) →
  i0 = to_u8 (Z.shiftr mdr 8) → i1 = to_u8 (Z.land mdr 0x00ff) →
  fetch_instr m =
    Ok (DECODE_INSTR,
        with_state (set_IR i0 i1)
          (with_state (set_MDR mdr) (with_state (set_MAR (PC (state m))) m))).
Proof.
  intros HPC Hcode -> -> ->. unfold fetch_instr.
  destruct (Z.ltb_spec (PC (state m)) CODE_SIZE) as [_|?]; [|lia].
  cbn [with_state state set_MAR MAR code]. unfold array_get. rewrite Hcode.
  reflexivity.
Qed.

Lemma decode_branch m :
  opcode (state m) = BRANCH_OPCODE → mode (state m) ≠ 7 →
  decode_instr m = Ok (FETCH_OPERANDS, m).
Proof.
  intros Hop Hmode. unfold decode_instr. rewrite Hop.
  by destruct (Z.eqb_spec (mode (state m)) 7).
Qed.

Lemma fetch_operands_branch_Ok BS m r1 :
  opcode (state m) = BRANCH_OPCODE →
  registers m !! Z.to_nat (get_reg1 (state m)) = Some r1 →
  fetch_operands BS m =
    Ok (EXECUTE_INSTR,
        with_state (set_ALU_y (to_u16 (extract_literal (state m))))
          (with_state (set_ALU_x r1) m)).
Proof.
  intros Hop Hr1. unfold fetch_operands, read_reg, array_get.
  rewrite decide_False by (rewrite Hop; done).
  rewrite Hr1. cbn [from_option mbind Result_bind]. fields.
  autorewrite with decoding. rewrite Hop. reflexivity.
Qed.

Lemma execute_jump m :
  opcode (state m) = BRANCH_OPCODE → mode (state m) = 0 →
  branch_count m < INT_MAX →
  execute_instr m =
    Ok (if BRANCH_LIMIT <? branch_count m + 1 then INFINITE_LOOP
        else WRITE_BACK,
        set_branch_count (branch_count m + 1)
          (with_state (set_ALU_z (ALU_x (state m))) m)).
Proof.
  intros Hop Hmode Hbc. unfold execute_instr, count_branch.
  rewrite Hop, Hmode. cbn [Z.eqb]. fields.
  destruct (Z.ltb_spec (branch_count m) INT_MAX); [done|lia].
Qed.

Lemma write_back_branch BS m :
  opcode (state m) = BRANCH_OPCODE →
  write_back BS m =
    Ok (FETCH_INSTR,
        with_state (set_PC (to_u16 (ALU_z (state m) + 1)))
          (with_state (set_PC (ALU_z (state m))) m)).
Proof. intros Hop. unfold write_back. rewrite Hop. reflexivity. Qed.

(* the phases of JUMP R0 up to EXECUTE_INSTR, at an address whose successor
   R0 + 1 is the address itself *)
Lemma self_jump_execute BS m :
  PC (state m) = 1 → code m !! 1%nat = Some (0xE0, 0x00) →
  registers m !! 0%nat = Some 0 → branch_count m ≤ BRANCH_LIMIT →
  ∃ m', run BS 4 FETCH_INSTR m =
          Ok (if BRANCH_LIMIT <? branch_count m + 1 then INFINITE_LOOP
              else WRITE_BACK, m') ∧
        opcode (state m') = BRANCH_OPCODE ∧ ALU_z (state m') = 0 ∧
        code m' = code m ∧ registers m' = registers m ∧
        branch_count m' = branch_count m + 1.
Proof.
  intros HPC Hcode Hr0 Hbc.
  eexists. split.
  - rewrite (run_step BS 3 FETCH_INSTR) by done. cbn [control_unit].
    rewrite (fetch_instr_word m 0xE0 0x00 0xE000 0xE0 0x00);
      [|rewrite HPC; unfold CODE_SIZE; lia|by rewrite HPC|done..].
    cbn [mbind Result_bind].
    rewrite (run_step BS 2 DECODE_INSTR) by done. cbn [control_unit].
    rewrite decode_branch by done. cbn [mbind Result_bind].
    rewrite (run_step BS 1 FETCH_OPERANDS) by done. cbn [control_unit].
    rewrite (fetch_operands_branch_Ok _ _ 0) by done.
    cbn [mbind Result_bind].
    rewrite (run_step BS 0 EXECUTE_INSTR) by done. cbn [control_unit].
    rewrite execute_jump;
      [|done|done|fields; unfold INT_MAX, BRANCH_LIMIT in *; lia].
    cbn [mbind Result_bind run]. fields. reflexivity.
  - fields. done.
Qed.

Lemma self_jump_turn BS m :
  PC (state m) = 1 → code m !! 1%nat = Some (0xE0, 0x00) →
  registers m !! 0%nat = Some 0 → branch_count m < BRANCH_LIMIT →
  ∃ m', run BS 5 FETCH_INSTR m = Ok (FETCH_INSTR, m') ∧
        PC (state m') = 1 ∧ code m' = code m ∧ registers m' = registers m ∧
        branch_count m' = branch_count m + 1.
Proof.
  intros HPC Hcode Hr0 Hbc.
  destruct (self_jump_execute BS m HPC Hcode Hr0 ltac:(lia))
    as (m1 & Hrun & Hop & Hz & Hc & Hr & Hb).
  destruct (Z.ltb_spec BRANCH_LIMIT (branch_count m + 1)); [lia|].
  eexists. split.
  - change 5%nat with (4 + 1)%nat. rewrite run_add, Hrun.
    cbn [mbind Result_bind].
    rewrite (run_step BS 0 WRITE_BACK) by done. cbn [control_unit].
    rewrite write_back_branch by done. cbn [mbind Result_bind run].
    reflexivity.
  - fields. rewrite Hz. done.
Qed.

Lemma self_jump_start CB BS words :
  ∃ m', run BS 5 FETCH_INSTR (boot CB BS self_jump_program words) =
          Ok (FETCH_INSTR, m') ∧
        PC (state m') = 1 ∧ code m' !! 1%nat = Some (0xE0, 0x00) ∧
        registers m' !! 0%nat = Some 0 ∧ branch_count m' = 0.
Proof.
  eexists. split; [vm_compute; reflexivity|]. vm_compute. done.
Qed.

Lemma self_jump_turns BS n m :
  PC (state m) = 1 → code m !! 1%nat = Some (0xE0, 0x00) →
  registers m !! 0%nat = Some 0 →
  branch_count m + Z.of_nat n ≤ BRANCH_LIMIT →
  ∃ m', run BS (5 * n) FETCH_INSTR m = Ok (FETCH_INSTR, m') ∧
        PC (state m') = 1 ∧ code m' !! 1%nat = Some (0xE0, 0x00) ∧
        registers m' !! 0%nat = Some 0 ∧
        branch_count m' = branch_count m + Z.of_nat n.
Proof.
  revert m. induction n as [|n IH]; intros m HPC Hcode Hr0 Hbc.
  - exists m. rewrite Z.add_0_r. done.
  - destruct (self_jump_turn BS m HPC Hcode Hr0 ltac:(lia))
      as (m1 & Hrun1 & HPC1 & Hcode1 & Hr1 & Hb1).
    destruct (IH m1) as (m2 & Hrun2 & HPC2 & Hcode2 & Hr2 & Hb2);
      [done|congruence|congruence|lia|].
    exists m2. split; [|repeat split; try done; lia].
    replace (5 * S n)%nat with (5 + 5 * n)%nat by lia.
    rewrite run_add, Hrun1. done.
Qed.

(* the program ADD R0, #0; JUMP R0 stops with INFINITE_LOOP at the jump that
   takes branch_count past BRANCH_LIMIT *)
Lemma self_jump_loops CB BS words :
  ∃ fuel mf,
    run BS fuel FETCH_INSTR (boot CB BS self_jump_program words) =
      Ok (INFINITE_LOOP, mf) ∧
    branch_count mf = BRANCH_LIMIT + 1.
Proof.
  destruct (self_jump_start CB BS words)
    as (m1 & Hrun1 & HPC1 & Hcode1 & Hr1 & Hb1).
  destruct (self_jump_turns BS (Z.to_nat BRANCH_LIMIT) m1)
    as (m2 & Hrun2 & HPC2 & Hcode2 & Hr2 & Hb2); try done.
  { rewrite Hb1. unfold BRANCH_LIMIT. lia. }
  destruct (self_jump_execute BS m2 HPC2 Hcode2 Hr2)
    as (m3 & Hrun3 & _ & _ & _ & _ & Hb3).
  { rewrite Hb2, Hb1. unfold BRANCH_LIMIT. lia. }
  assert (Hlimit : branch_count m2 = BRANCH_LIMIT).
  { rewrite Hb2, Hb1. unfold BRANCH_LIMIT. lia. }
  rewrite Hlimit in Hrun3, Hb3.
  change (BRANCH_LIMIT <? BRANCH_LIMIT + 1) with true in Hrun3.
  exists (5 + (5 * Z.to_nat BRANCH_LIMIT + 4))%nat, m3. split; [|done].
  rewrite run_add, Hrun1. cbn [mbind Result_bind].
  rewrite run_add, Hrun2. done.
Qed.

Lemma count_branch_result m rc m' :
  count_branch m = Ok (rc, m') →
  branch_count m' = branch_count m + 1 ∧
  rc = (if BRANCH_LIMIT <? branch_count m + 1 then INFINITE_LOOP
        else WRITE_BACK).
Proof.
  unfold count_branch. destruct (_ <? INT_MAX); [|done].
  by intros [= <- <-].
Qed.

(* EXECUTE_INSTR either counts a branch, or leaves branch_count alone and
   goes on to WRITE_BACK *)
Lemma execute_instr_counts m rc m' :
  execute_instr m = Ok (rc, m') →
  let s := state m in
  (opcode s = BRANCH_OPCODE ∧
   (mode s = 0 ∨
    (mode s ≠ 0 ∧ ∀ r0, registers m !! 0%nat = Some r0 →
       branch_condition (mode s) (to_s16 (ALU_x s)) (to_s16 r0))) ∧
   branch_count m' = branch_count m + 1 ∧
   rc = (if BRANCH_LIMIT <? branch_count m + 1 then INFINITE_LOOP
         else WRITE_BACK)) ∨
  ((opcode s ≠ BRANCH_OPCODE ∨
    (mode s ≠ 0 ∧ ∀ r0, registers m !! 0%nat = Some r0 →
       ¬ branch_condition (mode s) (to_s16 (ALU_x s)) (to_s16 r0))) ∧
   branch_count m' = branch_count m ∧ rc = WRITE_BACK).
Proof.
  intros H s. subst s. unfold execute_instr in H. cbv zeta in H.
  destruct (opcode (state m)) eqn:Hop;
    try (right; split; [by left|];
         repeat match type of H with
                | (if ?c then _ else _) = _ => destruct c
                end; by injection H as <- <-).
  destruct (Z.eqb_spec (mode (state m)) 0) as [Hmode|Hmode].
  - left. apply count_branch_result in H as [? ?]. fields. auto.
  - apply bind_Ok in H as (b & Hb & H). destruct b.
    + left. apply count_branch_result in H as [? ?]. fields.
      split; [done|]. split; [|done]. right. split; [done|].
      intros r0 Hr0. by apply (branch_taken_spec _ _ _ _ _ Hr0 Hb).
    + right. injection H as <- <-. fields. split; [|done].
      right. split; [done|]. intros r0 Hr0 Hc.
      by apply (branch_taken_spec _ _ _ _ _ Hr0 Hb) in Hc.
Qed.

(** C8.  When EXECUTE_INSTR runs in a machine the simulator reaches, a jump
    and a conditional branch whose condition holds add exactly 1 to
    branch_count, every other instruction leaves it alone, and the phase
    returns INFINITE_LOOP exactly when branch_count now exceeds BRANCH_LIMIT
    (otherwise WRITE_BACK).  The program ADD R0, #0; JUMP R0, whose jump
    targets itself, stops with INFINITE_LOOP with branch_count equal to
    BRANCH_LIMIT + 1 = 1,000,001. *)
Theorem branch_count_guard
  (CB BS : Z) (bytes : list Z) (words : list Word)
  (fuel : nat) (m : Machine) (rc : Phase) (m' : Machine) :
  0 < BS →
  run BS fuel FETCH_INSTR (boot CB BS bytes words) = Ok (EXECUTE_INSTR, m) →
  execute_instr m = Ok (rc, m') →
  let s := state m in
  (opcode s = BRANCH_OPCODE → mode s = 0 →
   branch_count m' = branch_count m + 1) ∧
  (opcode s = BRANCH_OPCODE → mode s ≠ 0 →
   ∀ r0, registers m !! 0%nat = Some r0 →
     (branch_condition (mode s) (to_s16 (ALU_x s)) (to_s16 r0) →
      branch_count m' = branch_count m + 1) ∧
     (¬ branch_condition (mode s) (to_s16 (ALU_x s)) (to_s16 r0) →
      branch_count m' = branch_count m)) ∧
  (opcode s ≠ BRANCH_OPCODE → branch_count m' = branch_count m) ∧
  (rc = INFINITE_LOOP ↔ BRANCH_LIMIT < branch_count m') ∧
  (rc = INFINITE_LOOP ∨ rc = WRITE_BACK) ∧
  BRANCH_LIMIT = 1000000 ∧
  (∃ fuel' mf,
     run BS fuel' FETCH_INSTR (boot CB BS self_jump_program words) =
       Ok (INFINITE_LOOP, mf) ∧
     branch_count mf = BRANCH_LIMIT + 1).
Proof.
  intros HBS Hrun Hex s.
  pose proof (reachable_inv _ _ _ _ _ _ _ HBS Hrun)
    as (_ & _ & _ & _ & _ & Hlim & _).
  pose proof (execute_instr_counts _ _ _ Hex) as Hcount. fold s in Hcount.
  split; [|split; [|split; [|split; [|split; [|split]]]]].
  - intros Hop Hmode.
    destruct Hcount as [(_ & _ & ? & _)|([?|[? _]] & _)]; done.
  - intros Hop Hmode r0 Hr0.
    destruct Hcount as [(_ & [?|[_ Hc]] & ? & _)|([?|[_ Hc]] & ? & _)];
      try done; specialize (Hc r0 Hr0); split; intros; done.
  - intros Hop. destruct Hcount as [(? & _)|(_ & ? & _)]; done.
  - destruct Hcount as [(_ & _ & -> & ->)|(_ & -> & ->)].
    + destruct (Z.ltb_spec BRANCH_LIMIT (branch_count m + 1)); split;
        try done; lia.
    + split; [done|lia].
  - destruct Hcount as [(_ & _ & _ & ->)|(_ & _ & ->)]; [|by right].
    destruct (_ <? _); auto.
  - done.
  - apply self_jump_loops.
Qed.

(** ** The register file *)

Lemma control_unit_registers_length BS p m p' m' :
  control_unit BS p m = Ok (p', m') →
  length (registers m') = length (registers m).
Proof.
  intros H. destruct p; cbn [control_unit] in H; try by injection H as <- <-.
  - apply fetch_instr_Ok in H as [(_ & _ & ->)|(_ & _ & _ & -> & _)]; done.
  - by apply decode_instr_kept in H as ->.
  - by apply calculate_ea_kept in H as (_ & _ & _ & _ & ->).
  - by apply fetch_operands_kept in H as (_ & _ & _ & ->).
  - by apply execute_instr_kept in H as (_ & _ & _ & ->).
  - unfold write_back in H. cbv zeta in H.
    apply bind_Ok in H as ([rc m1] & Hm1 & H). injection H as <- <-. fields.
    destruct (opcode (state m));
      repeat match type of Hm1 with
             | (if ?c then _ else _) = _ => destruct c
             end;
      try (apply cache_write_frame in Hm1 as (_ & _ & -> & _); done);
      unfold write_reg in Hm1; ok_tac; fields; by rewrite ?length_insert.
Qed.

Lemma run_register_fault BS fuel p m :
  length (registers m) = Z.to_nat REGISTERS →
  run BS fuel p m ≠ Undefined RegisterIndex.
Proof.
  revert p m. induction fuel as [|fuel IH]; intros p m Hlen; [done|].
  destruct (running p) eqn:Hp; [|by rewrite run_stopped].
  rewrite run_step by done.
  destruct (control_unit BS p m) as [[p1 m1]|f] eqn:Hstep;
    cbn [mbind Result_bind].
  - apply IH. by rewrite (control_unit_registers_length _ _ _ _ _ Hstep).
  - intros [= ->]. by apply (control_unit_register_fault BS p m).
Qed.

(** C10.  Whatever the two bytes of IR are, the register numbers get_reg1 and
    (IR[1] >> 2) & 0x0F are below REGISTERS = 16; with a register file of 16
    registers no phase indexes registers[] out of range, every phase leaves
    the file with 16 registers, and so no run of the simulator does. *)
Theorem register_accesses_in_range (BS : Z) (p : Phase) (m : Machine) :
  length (registers m) = Z.to_nat REGISTERS →
  0 ≤ get_reg1 (state m) < REGISTERS ∧
  0 ≤ get_reg2 (state m) < REGISTERS ∧
  get_reg2 (state m) = Z.land (Z.shiftr (IR1 (state m)) 2 mod 256) 0x0F ∧
  control_unit BS p m ≠ Undefined RegisterIndex ∧
  (∀ p' m', control_unit BS p m = Ok (p', m') →
            length (registers m') = Z.to_nat REGISTERS) ∧
  (∀ fuel, run BS fuel p m ≠ Undefined RegisterIndex) ∧
  (∀ CB bytes words fuel,
     run BS fuel FETCH_INSTR (boot CB BS bytes words)
       ≠ Undefined RegisterIndex).
Proof.
  intros Hlen.
  split; [apply get_reg1_bound|].
  split; [apply get_reg2_bound|].
  split; [done|].
  split; [by apply control_unit_register_fault|].
  split; [|split].
  - intros p' m' H. by rewrite (control_unit_registers_length _ _ _ _ _ H).
  - intros fuel. by apply run_register_fault.
  - intros CB bytes words fuel. apply run_register_fault.
    unfold boot, load_data, load_code, initialize_system. fields.
    by rewrite length_replicate.
Qed.

(** ** The range check of the cache *)

Lemma cache_access_out_of_range BS m :
  DATA_SIZE BS * BS * WORD_SIZE ≤ MAR (state m) →
  cache_read BS m = Ok (ILLEGAL_ADDRESS, m) ∧
  cache_write BS m = Ok (ILLEGAL_ADDRESS, m).
Proof.
  unfold WORD_SIZE. intros H. unfold cache_read, cache_write.
  destruct (Z.ltb_spec (MAR (state m)) (DATA_SIZE BS * BS * 2)); [lia|done].
Qed.

(* the last address the range check lets through names a block beyond the
   DATA_SIZE blocks of data memory, whatever the block size *)
Lemma last_passing_address_beyond_data BS :
  1 ≤ BS ≤ 1024 →
  let addr := DATA_SIZE BS * BS * WORD_SIZE - 2 in
  0 ≤ addr < DATA_SIZE BS * BS * WORD_SIZE ∧
  DATA_SIZE BS ≤ addr2tag BS addr.
Proof.
  intros HBS. unfold DATA_SIZE, addr2tag, WORD_SIZE.
  rewrite (Z.quot_div_nonneg 1024 BS) by lia.
  assert (Hd : 1 ≤ 1024 / BS) by (apply Z.div_le_lower_bound; lia).
  assert (Hm : 1024 / BS * BS ≤ 1024)
    by (pose proof (Z.mul_div_le 1024 BS ltac:(lia)); lia).
  set (D := 1024 / BS) in *.
  assert (Hx : 2 ≤ D * BS).
  { destruct (decide (BS = 1)) as [->|].
    - subst D. change (1024 / 1) with 1024. lia.
    - nia. }
  cbv zeta. split; [lia|].
  rewrite Z.quot_div_nonneg by lia.
  apply Z.div_le_lower_bound; lia.
Qed.

(** C1 (the access the claim names, on the code).  With the default geometry
    the address DATA_SIZE * BLOCK_SIZE * WORD_SIZE - 2 = 2046 passes the range
    check of cache_read and of cache_write, but its block index 2046 / 8 = 255
    is not below DATA_SIZE = 128: both routines index data[] out of range. *)
Theorem range_check_lets_through_block_beyond_data :
  let m := with_state (set_MAR 2046) (initialize_system 1 8) in
  DATA_SIZE 8 * 8 * WORD_SIZE - 2 = 2046 ∧
  (MAR (state m) <? DATA_SIZE 8 * 8 * 2) = true ∧
  addr2tag 8 (MAR (state m)) = 255 ∧ DATA_SIZE 8 = 128 ∧
  length (data m) = 128%nat ∧
  cache_read 8 m = Undefined DataIndex ∧
  cache_write 8 m = Undefined DataIndex.
Proof. vm_compute. repeat split; reflexivity. Qed.

(** ** Encoding and decoding *)

Lemma below_elem n z : 0 ≤ z < Z.of_nat n → In z (below n).
Proof.
  intros Hz. unfold below. apply list_elem_of_In, list_elem_of_fmap.
  exists (Z.to_nat z). split; [lia|].
  apply list_elem_of_In, in_seq. lia.
Qed.

Lemma encode_literal_bits op t r1 r2 imm :
  Assembler.encode (Assembler.mkInstruction op t r1 r2 imm) =
  Assembler.encode (Assembler.mkInstruction op t r1 r2 (Z.land imm 0x03)).
Proof.
  unfold Assembler.encode. cbn [Assembler.immediate Assembler.reg1
    Assembler.reg2 Assembler.type Assembler.opcode].
  by rewrite <- Z.land_assoc, Z.land_diag.
Qed.

Lemma all_fields_recovered :
  forallb (λ op,
    forallb (λ t,
      forallb (λ r1,
        forallb (λ r2,
          forallb (λ k, fields_recovered op t r1 r2 k) (below 4))
          (below 16))
        (below 16))
      (below 8))
    [Assembler.ADD; Assembler.SUB; Assembler.AND; Assembler.OR;
     Assembler.XOR; Assembler.MOVE; Assembler.SHIFT; Assembler.BRANCH]
  = true.
Proof. vm_compute. reflexivity. Qed.

(* within the field widths the encoder and the decoder agree on the opcode,
   the mode and the two registers *)
Lemma encode_decode_fields op t r1 r2 imm :
  0 ≤ t < 8 → 0 ≤ r1 < 16 → 0 ≤ r2 < 16 →
  ∃ lit,
    decode_fields (Assembler.encode (Assembler.mkInstruction op t r1 r2 imm))
      = (simulated op, t, r1, r2, lit).
Proof.
  intros Ht Hr1 Hr2. rewrite encode_literal_bits.
  assert (Hk : 0 ≤ Z.land imm 0x03 < 4) by (apply (land_ones_bound _ 2); lia).
  set (k := Z.land imm 0x03) in *. clearbody k.
  pose proof all_fields_recovered as Hall.
  rewrite forallb_forall in Hall.
  specialize (Hall op ltac:(destruct op; simpl; tauto)).
  rewrite forallb_forall in Hall.
  specialize (Hall t (below_elem 8 t ltac:(lia))).
  rewrite forallb_forall in Hall.
  specialize (Hall r1 (below_elem 16 r1 ltac:(lia))).
  rewrite forallb_forall in Hall.
  specialize (Hall r2 (below_elem 16 r2 ltac:(lia))).
  rewrite forallb_forall in Hall.
  specialize (Hall k (below_elem 4 k ltac:(lia))).
  apply bool_decide_eq_true in Hall.
  destruct (decode_fields _) as [fields lit]. exists lit.
  simpl in Hall. by rewrite Hall.
Qed.

(** C2 (the literal the claim names, on the code).  The assembler encodes
    ADD R1, 5 as the bytes 0x00 0x41: only the two low bits of the literal
    are written, and the simulator reads back the literal 1. *)
Theorem encode_keeps_two_bits_of_literal :
  let i := Assembler.mkInstruction Assembler.ADD 0 1 0 5 in
  Assembler.encode i = (0x00, 0x41) ∧
  decode_fields (Assembler.encode i) = (ADD_OPCODE, 0, 1, 0, 1).
Proof. vm_compute. split; reflexivity. Qed.

(** ** MOVE and the mode 5 *)

(** C3 (the claim is false on the code).  The word 0xB400 is a MOVE with
    mode 5; the decoder sends it on to CALCULATE_EA. *)
Lemma decode_accepts_move_mode_5 :
  let m := with_state (set_IR 0xB4 0x00) (initialize_system 1 8) in
  opcode (state m) = MOVE_OPCODE ∧ mode (state m) = 5 ∧
  decode_instr m = Ok (CALCULATE_EA, m) ∧
  decode_instr m ≠ Ok (ILLEGAL_OPCODE, m).
Proof. vm_compute. repeat split; try reflexivity. discriminate. Qed.

(** ** The statements on example machines *)

Lemma decode_move_rejects_bit1_witness :
  opcode (state move_mode_5) = MOVE_OPCODE ∧
  decode_instr move_mode_5 = Ok (CALCULATE_EA, move_mode_5).
Proof.
  split; [reflexivity|].
  apply (decode_move_rejects_bit1 move_mode_5); reflexivity.
Defined.

Lemma filler_halts_with_illegal_opcode_witness :
  code past_add_program = code (boot 1 8 add_program []) ∧
  0 ≤ PC (state past_add_program) < CODE_SIZE ∧
  (length add_program ≤ 2 * Z.to_nat (PC (state past_add_program)))%nat ∧
  ∃ m', (∀ fuel, (2 ≤ fuel)%nat →
           run 8 fuel FETCH_INSTR past_add_program = Ok (ILLEGAL_OPCODE, m')) ∧
        IR0 (state m') = MEM_FILLER ∧ IR1 (state m') = MEM_FILLER ∧
        PC (state m') = PC (state past_add_program).
Proof.
  assert (H1 : code past_add_program = code (boot 1 8 add_program []))
    by reflexivity.
  assert (H2 : 0 ≤ PC (state past_add_program) < CODE_SIZE)
    by (split; [discriminate | reflexivity]).
  assert (H3 : (length add_program
                ≤ 2 * Z.to_nat (PC (state past_add_program)))%nat)
    by (apply Nat.leb_le; reflexivity).
  split; [exact H1|]. split; [exact H2|]. split; [exact H3|].
  exact (filler_halts_with_illegal_opcode 1 8 add_program []
           past_add_program H1 H2 H3).
Defined.

Lemma stamps_distinct_and_below_witness :
  0 < 8 ∧
  run 8 10 FETCH_INSTR (boot 1 8 move_program [])
    = Ok (fst (after 10 move_program), two_moves) ∧
  stamps_distinct two_moves ∧ stamps_below two_moves.
Proof.
  assert (H1 : 0 < 8) by reflexivity.
  assert (H2 : run 8 10 FETCH_INSTR (boot 1 8 move_program [])
               = Ok (fst (after 10 move_program), two_moves))
    by (vm_compute; reflexivity).
  split; [exact H1|]. split; [exact H2|].
  exact (proj1 (stamps_distinct_and_below 1 8 move_program [] 10 _ _ H1 H2)).
Defined.

Lemma clean_entries_match_memory_witness :
  0 < 8 ∧
  run 8 10 FETCH_INSTR (boot 1 8 move_program [])
    = Ok (fst (after 10 move_program), two_moves) ∧
  cache_ops 1 8 some_cache_ops two_moves = Ok two_moves_and_ops ∧
  clean_entries_match two_moves_and_ops.
Proof.
  assert (H1 : 0 < 8) by reflexivity.
  assert (H2 : run 8 10 FETCH_INSTR (boot 1 8 move_program [])
               = Ok (fst (after 10 move_program), two_moves))
    by (vm_compute; reflexivity).
  assert (H3 : cache_ops 1 8 some_cache_ops two_moves = Ok two_moves_and_ops)
    by (vm_compute; reflexivity).
  split; [exact H1|]. split; [exact H2|]. split; [exact H3|].
  exact (proj1 (clean_entries_match_memory 1 8 move_program [] 10 _ _
                  some_cache_ops _ H1 H2 H3)).
Defined.

Lemma fetch_block_selects_and_fills_witness :
  0 < 8 ∧
  run 8 10 FETCH_INSTR (boot 1 8 move_program [])
    = Ok (fst (after 10 move_program), two_moves) ∧
  fetch_block 1 two_moves = Ok (0%nat, two_moves_fetched) ∧
  ∃ e0 blk,
    dictionary two_moves !! 0%nat = Some e0 ∧
    dictionary two_moves_fetched =
      <[0%nat := mkEntry true false (if valid e0 then 0 else ref_count e0) 1]>
        (dictionary two_moves) ∧
    data two_moves_fetched !! Z.to_nat 1 = Some blk ∧
    data_cache two_moves_fetched = <[0%nat := blk]> (data_cache two_moves) ∧
    current_ref_count two_moves_fetched = current_ref_count two_moves.
Proof.
  assert (H1 : 0 < 8) by reflexivity.
  assert (H2 : run 8 10 FETCH_INSTR (boot 1 8 move_program [])
               = Ok (fst (after 10 move_program), two_moves))
    by (vm_compute; reflexivity).
  assert (H3 : fetch_block 1 two_moves = Ok (0%nat, two_moves_fetched))
    by (vm_compute; reflexivity).
  split; [exact H1|]. split; [exact H2|]. split; [exact H3|].
  destruct (fetch_block_selects_and_fills 1 8 move_program [] 10 _ _ 1 0%nat _
              H1 H2 H3) as (e0 & blk & He0 & _ & Hrest).
  exists e0, blk. split; [exact He0 | exact Hrest].
Defined.

Lemma pc_after_retired_instruction_witness :
  u16 (PC (state beq_fetched)) ∧
  run 8 4 FETCH_INSTR beq_fetched = Ok (WRITE_BACK, beq_at_write_back) ∧
  write_back 8 beq_at_write_back = Ok (FETCH_INSTR, beq_retired) ∧
  PC (state beq_retired) =
    to_u16 (PC (state beq_fetched) + extract_literal (state beq_at_write_back)).
Proof.
  assert (H0 : u16 0) by (split; [discriminate | reflexivity]).
  assert (H1 : u16 (PC (state beq_fetched))) by exact H0.
  assert (H2 : run 8 4 FETCH_INSTR beq_fetched
               = Ok (WRITE_BACK, beq_at_write_back))
    by (vm_compute; reflexivity).
  assert (H3 : write_back 8 beq_at_write_back = Ok (FETCH_INSTR, beq_retired))
    by (vm_compute; reflexivity).
  split; [exact H1|]. split; [exact H2|]. split; [exact H3|].
  pose proof (pc_after_retired_instruction 8 beq_fetched beq_at_write_back
                FETCH_INSTR beq_retired H1 H2 H3) as H.
  cbv zeta in H. destruct H as [_ H].
  assert (Hop : opcode (state beq_at_write_back) = BRANCH_OPCODE)
    by reflexivity.
  rewrite Hop in H.
  change (mode (state beq_at_write_back) =? 0) with false in H.
  destruct (H 0 0 eq_refl eq_refl) as [Htaken _].
  apply Htaken. left. split; reflexivity.
Defined.

Lemma branch_count_guard_witness :
  0 < 8 ∧
  run 8 8 FETCH_INSTR (boot 1 8 self_jump_program [])
    = Ok (EXECUTE_INSTR, jump_at_execute) ∧
  execute_instr jump_at_execute = Ok (WRITE_BACK, jump_executed) ∧
  branch_count jump_executed = branch_count jump_at_execute + 1.
Proof.
  assert (H1 : 0 < 8) by reflexivity.
  assert (H2 : run 8 8 FETCH_INSTR (boot 1 8 self_jump_program [])
               = Ok (EXECUTE_INSTR, jump_at_execute))
    by (vm_compute; reflexivity).
  assert (H3 : execute_instr jump_at_execute = Ok (WRITE_BACK, jump_executed))
    by (vm_compute; reflexivity).
  split; [exact H1|]. split; [exact H2|]. split; [exact H3|].
  pose proof (branch_count_guard 1 8 self_jump_program [] 8 jump_at_execute
                WRITE_BACK jump_executed H1 H2 H3) as H.
  cbv zeta in H. destruct H as [Hjump _].
  apply Hjump; reflexivity.
Defined.

Lemma register_accesses_in_range_witness :
  length (registers (initialize_system 1 8)) = Z.to_nat REGISTERS ∧
  control_unit 8 FETCH_OPERANDS (initialize_system 1 8)
    ≠ Undefined RegisterIndex ∧
  ∀ fuel, run 8 fuel FETCH_OPERANDS (initialize_system 1 8)
            ≠ Undefined RegisterIndex.
Proof.
  assert (H1 : length (registers (initialize_system 1 8))
               = Z.to_nat REGISTERS) by reflexivity.
  split; [exact H1|].
  destruct (register_accesses_in_range 8 FETCH_OPERANDS (initialize_system 1 8)
              H1) as (_ & _ & _ & Hstep & _ & Hrun & _).
  split; [exact Hstep | exact Hrun].
Defined.
